(** * CustomDecisionTree: a shallow embedding of the entropy-based tree builder

    The development embeds the class [CustomDecisionTree] of the notebook
    (its methods [fit], [_build_tree], [_information_gain], [_entropy],
    [predict] and [_predict_single]) and proves the properties of the
    specification about them.

    Modelling conventions.
    - A one-dimensional integer array (the label vector [y]) is a
      [list nat]: [np.bincount] refuses negative entries.
    - A two-dimensional array [X] is the list of its rows; all the rows
      have the same length, [num_features].  Feature values are rational
      numbers: every finite double is one, and the code only compares them.
    - The doubles computed by [_entropy] and [_information_gain] are
      idealised as real numbers; [1e-9] is [1 / 10^9] and [np.log2 x] is
      [ln x / ln 2].  The initial value [-float('inf')] of the search is a
      constructor of its own.  Which of two candidates of nearly equal
      gain the search keeps depends on the rounding of the doubles: the
      rule of selection is therefore also stated for [search_fl], the
      same loops over an arbitrary function that stands for the doubles
      the program computes.
    - Python exceptions are values of [error]; a computation is a
      [result].  The recursion of [_build_tree] is driven by a fuel
      argument, and [OutOfFuel] is the answer of a run that needs more
      recursive calls than the fuel allows. *)

From Stdlib Require Import List Arith PeanoNat Bool ZArith QArith Reals Lra Lia.
From Stdlib Require Import Sorting.Sorted Sorting.Permutation.
Import ListNotations.

Close Scope Q_scope.
Close Scope R_scope.
Open Scope nat_scope.

(** ** Exceptions and results *)

Inductive error : Type :=
| IndexError
| ValueError
| TypeError
| ZeroDivisionError.

Inductive result (A : Type) : Type :=
| Ok (a : A)
| Raise (e : error)
| OutOfFuel.

Arguments Ok {A} a.
Arguments Raise {A} e.
Arguments OutOfFuel {A}.

Definition bind {A B : Type} (c : result A) (k : A -> result B) : result B :=
  match c with
  | Ok a => k a
  | Raise e => Raise e
  | OutOfFuel => OutOfFuel
  end.

Notation "x <- c ;; k" := (bind c (fun x => k))
  (at level 61, c at next level, right associativity).

(** A [for] loop whose body may raise: the state is threaded from left to
    right and the first exception ends the loop. *)
Fixpoint for_each {S A : Type} (body : S -> A -> result S) (l : list A) (s : S)
  : result S :=
  match l with
  | [] => Ok s
  | a :: l' => s' <- body s a ;; for_each body l' s'
  end.

(** A list comprehension whose element expression may raise. *)
Fixpoint comprehension {A B : Type} (f : A -> result B) (l : list A)
  : result (list B) :=
  match l with
  | [] => Ok []
  | a :: l' => b <- f a ;; bs <- comprehension f l' ;; Ok (b :: bs)
  end.

(** ** Arrays *)

Definition label := nat.
Definition labels := list label.
Definition row := list Q.
Definition matrix := list row.

(** [X.shape]: the number of rows and the common length of the rows.  A
    matrix without rows has lost its number of columns; [_build_tree]
    returns or raises before it reads [num_features] of such a matrix. *)
Definition num_samples (X : matrix) : nat := length X.
Definition num_features (X : matrix) : nat :=
  match X with
  | [] => 0
  | r :: _ => length r
  end.

(** [X[:, feature_idx]] *)
Definition column (X : matrix) (feature_idx : nat) : list Q :=
  map (fun r => nth feature_idx r 0%Q) X.

(** [a[mask]] for a boolean [mask]: numpy raises [IndexError] when the mask
    and the array differ in length. *)
Fixpoint select {A : Type} (a : list A) (mask : list bool) : list A :=
  match a, mask with
  | x :: a', b :: mask' => if b then x :: select a' mask' else select a' mask'
  | _, _ => []
  end.

Definition mask_index {A : Type} (a : list A) (mask : list bool)
  : result (list A) :=
  if length a =? length mask then Ok (select a mask) else Raise IndexError.

(** [X[idx]] for an integer array [idx]: the rows of [X] at the positions
    listed in [idx], in that order; a position past the last row raises
    [IndexError]. *)
Fixpoint take_rows (X : matrix) (idx : list nat) : result matrix :=
  match idx with
  | [] => Ok []
  | i :: idx' =>
      match nth_error X i with
      | None => Raise IndexError
      | Some r => rs <- take_rows X idx' ;; Ok (r :: rs)
      end
  end.

(** [np.unique] on labels: the distinct values in ascending order. *)
Fixpoint insert_label (x : label) (l : labels) : labels :=
  match l with
  | [] => [x]
  | h :: t =>
      if x <? h then x :: l
      else if x =? h then l
      else h :: insert_label x t
  end.

Definition unique_labels (y : labels) : labels :=
  fold_right insert_label [] y.

(** [np.unique] on a feature column. *)
Fixpoint insert_value (x : Q) (l : list Q) : list Q :=
  match l with
  | [] => [x]
  | h :: t =>
      if Qle_bool h x then
        if Qle_bool x h then l else h :: insert_value x t
      else x :: l
  end.

Definition unique_values (c : list Q) : list Q :=
  fold_right insert_value [] c.

(** [np.bincount]: entry [k] counts the occurrences of [k], for [k] from 0
    to the largest label; the empty array gives the empty array. *)
Definition bincount (y : labels) : list nat :=
  match y with
  | [] => []
  | _ => map (count_occ Nat.eq_dec y) (seq 0 (S (list_max y)))
  end.

(** [a.argmax()]: the first position of the largest entry; [ValueError] on
    the empty array. *)
Fixpoint argmax_from (l : list nat) (i best_i best_v : nat) : nat :=
  match l with
  | [] => best_i
  | v :: l' =>
      if best_v <? v then argmax_from l' (S i) i v
      else argmax_from l' (S i) best_i best_v
  end.

Definition argmax (l : list nat) : result nat :=
  match l with
  | [] => Raise ValueError
  | v :: l' => Ok (argmax_from l' 1 0 v)
  end.

(** ** The tree *)

(** The dictionaries returned by [_build_tree]: [{'class': c}] or
    [{'feature_idx', 'threshold', 'left_tree', 'right_tree'}]. *)
Inductive node : Type :=
| Leaf (class : label)
| Internal (feature_idx : nat) (threshold : Q) (left_tree right_tree : node).

Record CustomDecisionTree : Type := {
  max_depth : option nat;
  tree : option node
}.

(** [__init__] *)
Definition init (max_depth : option nat) : CustomDecisionTree :=
  {| max_depth := max_depth; tree := None |}.

(** ** Entropy and information gain *)

Definition log2 (x : R) : R := (ln x / ln 2)%R.

Definition eps : R := (1 / 1000000000)%R.

Definition Rsum (l : list R) : R := fold_right Rplus 0%R l.

(** [np.bincount(y) / len(y)] *)
Definition class_probs (y : labels) : list R :=
  map (fun c => (INR c / INR (length y))%R) (bincount y).

Definition _entropy (y : labels) : R :=
  (- Rsum (map (fun p => p * log2 (p + eps)) (class_probs y)))%R.

(** [len(left) / len(parent)] is a division of Python integers. *)
Definition _information_gain (parent left right : labels) : result R :=
  let parent_entropy := _entropy parent in
  let left_entropy := _entropy left in
  let right_entropy := _entropy right in
  if length parent =? 0 then Raise ZeroDivisionError
  else
    let weighted_avg_entropy :=
      (INR (length left) / INR (length parent) * left_entropy
       + INR (length right) / INR (length parent) * right_entropy)%R in
    Ok (parent_entropy - weighted_avg_entropy)%R.

(** ** The split search *)

Record split : Type := {
  feature_idx : nat;
  threshold : Q;
  left_y : labels;
  right_y : labels
}.

(** The values [best_info_gain] takes: [-inf], or a finite number. *)
Inductive gain_bound : Type :=
| NegInf
| Fin (g : R).

(** [info_gain > best_info_gain] *)
Definition gt_bound (info_gain : R) (best : gain_bound) : bool :=
  match best with
  | NegInf => true
  | Fin g => if Rgt_dec info_gain g then true else false
  end.

(** The two variables of the search: [best_info_gain] and [best_split]. *)
Definition search_state : Type := (gain_bound * option split)%type.

Definition search_init : search_state := (NegInf, None).

(** The body of the inner loop. *)
Definition try_threshold (X : matrix) (y : labels) (feature_idx : nat)
    (st : search_state) (threshold : Q) : result search_state :=
  let left_mask := map (fun v => Qle_bool v threshold) (column X feature_idx) in
  let right_mask := map negb left_mask in
  left_y <- mask_index y left_mask ;;
  right_y <- mask_index y right_mask ;;
  info_gain <- _information_gain y left_y right_y ;;
  if gt_bound info_gain (fst st) then
    Ok (Fin info_gain,
        Some {| feature_idx := feature_idx; threshold := threshold;
                left_y := left_y; right_y := right_y |})
  else Ok st.

(** The body of the outer loop. *)
Definition try_feature (X : matrix) (y : labels) (st : search_state)
    (feature_idx : nat) : result search_state :=
  let thresholds := unique_values (column X feature_idx) in
  for_each (try_threshold X y feature_idx) thresholds st.

Definition search (X : matrix) (y : labels) : result search_state :=
  for_each (try_feature X y) (seq 0 (num_features X)) search_init.

(** ** Building the tree *)

(** [self.max_depth and depth >= self.max_depth]: [None] and [0] are both
    false in a boolean context. *)
Definition truthy (m : option nat) : bool :=
  match m with
  | None => false
  | Some 0 => false
  | Some (S _) => true
  end.

Definition depth_reached (depth : nat) (m : option nat) : bool :=
  match m with
  | None => false
  | Some d => d <=? depth
  end.

(** [{'class': np.bincount(y).argmax()}] *)
Definition majority_leaf (y : labels) : result node :=
  c <- argmax (bincount y) ;; Ok (Leaf c).

Fixpoint _build_tree (fuel : nat) (max_depth : option nat)
    (X : matrix) (y : labels) (depth : nat) : result node :=
  match fuel with
  | 0 => OutOfFuel
  | S fuel' =>
      let unique_classes := unique_labels y in
      match unique_classes with
      | [c] => Ok (Leaf c)
      | _ =>
          if (num_samples X =? 0)
             || (truthy max_depth && depth_reached depth max_depth)
          then majority_leaf y
          else
            st <- search X y ;;
            match snd st with
            | None => majority_leaf y
            | Some best_split =>
                XL <- take_rows X (left_y best_split) ;;
                left_tree <- _build_tree fuel' max_depth XL
                               (left_y best_split) (S depth) ;;
                XR <- take_rows X (right_y best_split) ;;
                right_tree <- _build_tree fuel' max_depth XR
                                (right_y best_split) (S depth) ;;
                Ok (Internal (feature_idx best_split)
                             (threshold best_split) left_tree right_tree)
            end
      end
  end.

(** [fit] stores the tree built at depth 0 in the field [tree]. *)
Definition fit (fuel : nat) (self : CustomDecisionTree) (X : matrix)
    (y : labels) : result CustomDecisionTree :=
  t <- _build_tree fuel (max_depth self) X y 0 ;;
  Ok {| max_depth := max_depth self; tree := Some t |}.

(** ** Prediction *)

(** [_predict_single] on a tree that is a dictionary. *)
Fixpoint predict_node (x : row) (t : node) : result label :=
  match t with
  | Leaf c => Ok c
  | Internal feature_idx threshold left_tree right_tree =>
      match nth_error x feature_idx with
      | None => Raise IndexError
      | Some feature_val =>
          if Qle_bool feature_val threshold
          then predict_node x left_tree
          else predict_node x right_tree
      end
  end.

(** [_predict_single]: the test ['class' in tree] raises [TypeError] when
    [tree] is [None]. *)
Definition _predict_single (x : row) (t : option node) : result label :=
  match t with
  | None => Raise TypeError
  | Some t => predict_node x t
  end.

Definition predict (self : CustomDecisionTree) (X : matrix)
  : result (list label) :=
  comprehension (fun x => _predict_single x (tree self)) X.

(** The guard of the second [return] of [_build_tree]. *)
Definition stops_early (md : option nat) (X : matrix) (depth : nat) : bool :=
  (num_samples X =? 0) || (truthy md && depth_reached depth md).

(** ** The search seen as one loop over a list of candidates *)

(** The pairs (feature index, threshold) in the order the two nested loops
    visit them. *)
Definition visits (X : matrix) : list (nat * Q) :=
  flat_map (fun f => map (pair f) (unique_values (column X f)))
           (seq 0 (num_features X)).

(** The state of the search after its first [k] iterations. *)
Definition search_upto (X : matrix) (y : labels) (k : nat)
  : result search_state :=
  for_each (fun st v => try_threshold X y (fst v) st (snd v))
           (firstn k (visits X)) search_init.

(** The dictionary an iteration would record for feature [f] and
    threshold [t]. *)
Definition split_at (X : matrix) (y : labels) (f : nat) (t : Q) : split :=
  let left_mask := map (fun v => Qle_bool v t) (column X f) in
  {| feature_idx := f; threshold := t;
     left_y := select y left_mask;
     right_y := select y (map negb left_mask) |}.

Definition candidates (X : matrix) (y : labels) : list split :=
  map (fun v => split_at X y (fst v) (snd v)) (visits X).

(** The number [_information_gain] returns for a candidate when the parent
    is not empty. *)
Definition gain (y : labels) (s : split) : R :=
  (_entropy y
   - (INR (length (left_y s)) / INR (length y) * _entropy (left_y s)
      + INR (length (right_y s)) / INR (length y) * _entropy (right_y s)))%R.

Definition step (y : labels) (st : search_state) (s : split) : search_state :=
  if gt_bound (gain y s) (fst st) then (Fin (gain y s), Some s) else st.

(** The order on the values of [best_info_gain]. *)
Definition le_bound (a b : gain_bound) : Prop :=
  match a, b with
  | NegInf, _ => True
  | Fin _, NegInf => False
  | Fin x, Fin z => (x <= z)%R
  end.

(** [a] is visited before [b]: a lower feature index, or the same feature
    and a lower threshold. *)
Definition visited_before (a b : nat * Q) : Prop :=
  fst a < fst b \/ (fst a = fst b /\ (snd a < snd b)%Q).

Definition key (s : split) : nat * Q := (feature_idx s, threshold s).

(** [b] is the first candidate of [l] whose gain is the greatest of [l]. *)
Definition first_max (y : labels) (l : list split) (b : split) : Prop :=
  exists l1 l2,
    l = l1 ++ b :: l2
    /\ (forall c, In c l1 -> (gain y c < gain y b)%R)
    /\ (forall c, In c l2 -> (gain y c <= gain y b)%R).

(** ** The inputs of the scenarios *)

(** Four samples of one feature, separated by the threshold 2. *)
Definition X4 : matrix := [[1]; [2]; [3]; [4]]%Q.
Definition y4 : labels := [0; 0; 1; 1].

(** Ten samples with the same feature value, five of each label. *)
Definition X10 : matrix := repeat [5%Q] 10.
Definition y10 : labels := [0; 0; 0; 0; 0; 1; 1; 1; 1; 1].

(** Two samples with the same feature value and different labels. *)
Definition X2 : matrix := [[5]; [5]]%Q.
Definition y2 : labels := [0; 1].

(** The four candidates of the search on [X4], [y4]. *)
Definition c4_1 : split :=
  {| feature_idx := 0; threshold := 1%Q; left_y := [0]; right_y := [0; 1; 1] |}.
Definition c4_2 : split :=
  {| feature_idx := 0; threshold := 2%Q; left_y := [0; 0]; right_y := [1; 1] |}.
Definition c4_3 : split :=
  {| feature_idx := 0; threshold := 3%Q; left_y := [0; 0; 1]; right_y := [1] |}.
Definition c4_4 : split :=
  {| feature_idx := 0; threshold := 4%Q; left_y := [0; 0; 1; 1]; right_y := [] |}.

(** The only candidate of the search on [X10], [y10]: every sample goes
    left. *)
Definition c10 : split :=
  {| feature_idx := 0; threshold := 5%Q; left_y := y10; right_y := [] |}.

(** The only candidate of the search on [X2], [y2]. *)
Definition c2 : split :=
  {| feature_idx := 0; threshold := 5%Q; left_y := y2; right_y := [] |}.

(** [X[left_mask]]: the rows of [X] whose feature [f] is at most [t], which
    is what a partition of [X] by the mask of the split would be. *)
Definition rows_left_of (X : matrix) (f : nat) (t : Q) : matrix :=
  select X (map (fun v => Qle_bool v t) (column X f)).

Definition rows_right_of (X : matrix) (f : nat) (t : Q) : matrix :=
  select X (map negb (map (fun v => Qle_bool v t) (column X f))).

(** A vector of 10^11 labels 0 followed by a single label 1. *)
Definition y_imbalanced : labels :=
  repeat 0 (Z.to_nat 100000000000) ++ [1].

(** A matrix of [n] copies of the row [r]. *)
Definition identical_rows (r : row) (n : nat) : matrix := repeat r n.

(** ** Measures of a tree *)

(** The labels at the leaves, from left to right. *)
Fixpoint leaves (t : node) : list label :=
  match t with
  | Leaf c => [c]
  | Internal _ _ l r => leaves l ++ leaves r
  end.

(** The number of tests on the longest path from the root to a leaf. *)
Fixpoint height (t : node) : nat :=
  match t with
  | Leaf _ => 0
  | Internal _ _ l r => S (Nat.max (height l) (height r))
  end.

(** Every feature index tested in the tree is below [m]. *)
Fixpoint features_below (m : nat) (t : node) : Prop :=
  match t with
  | Leaf _ => True
  | Internal f _ l r => f < m /\ features_below m l /\ features_below m r
  end.

(** Every row of the matrix has [m] entries. *)
Definition rectangular (m : nat) (X : matrix) : Prop :=
  Forall (fun r => length r = m) X.

(** The four ways in which a call of [_build_tree] with fuel [S fuel']
    returns a node: a pure label vector, the guard on the number of samples
    and the depth, a search that recorded nothing, or a split and two
    recursive calls that returned. *)
Inductive returns_by (fuel' : nat) (md : option nat) (X : matrix)
    (y : labels) (depth : nat) (t : node) : Prop :=
| by_pure (c : label) :
    unique_labels y = [c] -> t = Leaf c ->
    returns_by fuel' md X y depth t
| by_guard :
    (forall c, unique_labels y <> [c]) ->
    stops_early md X depth = true -> majority_leaf y = Ok t ->
    returns_by fuel' md X y depth t
| by_no_split (g : gain_bound) :
    (forall c, unique_labels y <> [c]) ->
    stops_early md X depth = false ->
    search X y = Ok (g, None) -> majority_leaf y = Ok t ->
    returns_by fuel' md X y depth t
| by_split (g : gain_bound) (bs : split) (XL XR : matrix) (l r : node) :
    (forall c, unique_labels y <> [c]) ->
    stops_early md X depth = false ->
    search X y = Ok (g, Some bs) ->
    take_rows X (left_y bs) = Ok XL ->
    _build_tree fuel' md XL (left_y bs) (S depth) = Ok l ->
    take_rows X (right_y bs) = Ok XR ->
    _build_tree fuel' md XR (right_y bs) (S depth) = Ok r ->
    t = Internal (feature_idx bs) (threshold bs) l r ->
    returns_by fuel' md X y depth t.

(** The body of [_build_tree], with its recursive calls made through
    [rec]. *)
Definition build_body (rec : matrix -> labels -> nat -> result node)
    (md : option nat) (X : matrix) (y : labels) (depth : nat) : result node :=
  match unique_labels y with
  | [c] => Ok (Leaf c)
  | _ =>
      if stops_early md X depth then majority_leaf y
      else
        st <- search X y ;;
        match snd st with
        | None => majority_leaf y
        | Some best_split =>
            XL <- take_rows X (left_y best_split) ;;
            left_tree <- rec XL (left_y best_split) (S depth) ;;
            XR <- take_rows X (right_y best_split) ;;
            right_tree <- rec XR (right_y best_split) (S depth) ;;
            Ok (Internal (feature_idx best_split) (threshold best_split)
                         left_tree right_tree)
        end
  end.

(** ** The search on the doubles the program computes *)

(** The number [_information_gain] returns with exact real arithmetic. *)
Definition exact_gain (parent left right : labels) : R :=
  (_entropy parent
   - (INR (length left) / INR (length parent) * _entropy left
      + INR (length right) / INR (length parent) * _entropy right))%R.

Section ComputedGain.

(** [gain_fl parent left right] stands for the double that the statements
    of [_information_gain] compute on three label arrays, [parent] not
    empty, seen as the real number it denotes: the rounding of every
    operation and of [np.log2] is inside it.  On label arrays the
    computation gives neither NaN nor an infinity, and two doubles compare
    as the real numbers they denote, so that [gt_bound] on these numbers
    is the comparison of the program. *)
Variable gain_fl : labels -> labels -> labels -> R.

Definition information_gain_fl (parent left right : labels) : result R :=
  if length parent =? 0 then Raise ZeroDivisionError
  else Ok (gain_fl parent left right).

(** The body of the inner loop. *)
Definition try_threshold_fl (X : matrix) (y : labels) (feature_idx : nat)
    (st : search_state) (threshold : Q) : result search_state :=
  let left_mask := map (fun v => Qle_bool v threshold) (column X feature_idx) in
  let right_mask := map negb left_mask in
  left_y <- mask_index y left_mask ;;
  right_y <- mask_index y right_mask ;;
  info_gain <- information_gain_fl y left_y right_y ;;
  if gt_bound info_gain (fst st) then
    Ok (Fin info_gain,
        Some {| feature_idx := feature_idx; threshold := threshold;
                left_y := left_y; right_y := right_y |})
  else Ok st.

(** The body of the outer loop. *)
Definition try_feature_fl (X : matrix) (y : labels) (st : search_state)
    (feature_idx : nat) : result search_state :=
  let thresholds := unique_values (column X feature_idx) in
  for_each (try_threshold_fl X y feature_idx) thresholds st.

Definition search_fl (X : matrix) (y : labels) : result search_state :=
  for_each (try_feature_fl X y) (seq 0 (num_features X)) search_init.

(** The computed gain of a candidate. *)
Definition computed_gain (y : labels) (s : split) : R :=
  gain_fl y (left_y s) (right_y s).

Definition step_fl (y : labels) (st : search_state) (s : split)
  : search_state :=
  if gt_bound (computed_gain y s) (fst st)
  then (Fin (computed_gain y s), Some s) else st.

(** [b] is the first candidate of [l] whose computed gain is the greatest
    of [l]. *)
Definition first_max_fl (y : labels) (l : list split) (b : split) : Prop :=
  exists l1 l2,
    l = l1 ++ b :: l2
    /\ (forall c, In c l1 -> (computed_gain y c < computed_gain y b)%R)
    /\ (forall c, In c l2 -> (computed_gain y c <= computed_gain y b)%R).

End ComputedGain.

(** ** More inputs of the scenarios *)

(** Four samples whose third label is the odd one. *)
Definition y4b : labels := [0; 0; 1; 0].

(** [X4[[1, 0]]] and the labels that go with it. *)
Definition X21 : matrix := [[2]; [1]]%Q.
Definition y21 : labels := [1; 0].

(** The four candidates of the search on [X4], [y4b]. *)
Definition cb_1 : split :=
  {| feature_idx := 0; threshold := 1%Q; left_y := [0]; right_y := [0; 1; 0] |}.
Definition cb_2 : split :=
  {| feature_idx := 0; threshold := 2%Q; left_y := [0; 0]; right_y := [1; 0] |}.
Definition cb_3 : split :=
  {| feature_idx := 0; threshold := 3%Q; left_y := [0; 0; 1]; right_y := [0] |}.
Definition cb_4 : split :=
  {| feature_idx := 0; threshold := 4%Q; left_y := [0; 0; 1; 0]; right_y := [] |}.

(** The two candidates of the search on [X21], [y21]. *)
Definition cc_1 : split :=
  {| feature_idx := 0; threshold := 1%Q; left_y := [0]; right_y := [1] |}.
Definition cc_2 : split :=
  {| feature_idx := 0; threshold := 2%Q; left_y := [1; 0]; right_y := [] |}.

(** Two samples with two equal feature columns. *)
Definition Xtwin : matrix := [[1; 1]; [2; 2]]%Q.
Definition ytwin : labels := [0; 1].

(** * Properties *)

(** ** The array operations on small inputs *)

Example unique_labels_example : unique_labels [2; 0; 2; 1; 0] = [0; 1; 2].
Proof. reflexivity. Qed.

Example unique_values_example :
  unique_values [3; 1; 3; 2]%Q = [1; 2; 3]%Q.
Proof. reflexivity. Qed.

Example bincount_example : bincount [0; 3; 3; 1] = [1; 1; 0; 2].
Proof. reflexivity. Qed.

(** Among the labels of greatest count, [argmax] picks the lowest. *)
Example argmax_tie_example : argmax (bincount [2; 0; 2; 0; 1]) = Ok 0.
Proof. reflexivity. Qed.

Example argmax_empty_example : argmax (bincount []) = Raise ValueError.
Proof. reflexivity. Qed.

Example mask_index_example :
  mask_index [7; 8; 9] [true; false; true] = Ok [7; 9].
Proof. reflexivity. Qed.

Example mask_index_mismatch_example :
  mask_index [7; 8; 9] [true; false] = Raise IndexError.
Proof. reflexivity. Qed.

Example take_rows_example :
  take_rows X4 [3; 0; 0] = Ok [[4]; [1]; [1]]%Q.
Proof. reflexivity. Qed.

Example take_rows_out_of_range_example :
  take_rows X4 [0; 4] = Raise IndexError.
Proof. reflexivity. Qed.

Example visits_example :
  visits [[1; 9]; [2; 9]; [1; 8]]%Q
  = [(0, 1%Q); (0, 2%Q); (1, 8%Q); (1, 9%Q)].
Proof. reflexivity. Qed.

Example predict_example :
  predict {| max_depth := None;
             tree := Some (Internal 0 2%Q (Leaf 0) (Leaf 1)) |}
          [[5 # 2]; [2]; [-1]]%Q
  = Ok [1; 0; 0].
Proof. reflexivity. Qed.

(** ** The result monad and the loops *)

Lemma bind_Ok {A B : Type} (c : result A) (k : A -> result B) (b : B) :
  bind c k = Ok b -> exists a, c = Ok a /\ k a = Ok b.
Proof.
  destruct c as [a | e | ]; simpl; intros H; try discriminate.
  exists a; split; [reflexivity | exact H].
Qed.

Lemma for_each_app {S A : Type} (body : S -> A -> result S) (l1 l2 : list A)
    (s : S) :
  for_each body (l1 ++ l2) s = (s' <- for_each body l1 s ;; for_each body l2 s').
Proof.
  revert s; induction l1 as [| a l1 IH]; intros s; simpl; [reflexivity |].
  destruct (body s a) as [s' | e | ]; simpl; [apply IH | reflexivity | reflexivity].
Qed.

Lemma comprehension_const {A B : Type} (b : B) (l : list A) :
  comprehension (fun _ => Ok b) l = Ok (repeat b (length l)).
Proof.
  induction l as [| a l IH]; simpl; [reflexivity |].
  rewrite IH; reflexivity.
Qed.

(** ** Labels: [np.unique], [np.bincount], [argmax] *)

Lemma unique_labels_constant (c : label) (y : labels) :
  y <> [] -> Forall (fun l => l = c) y -> unique_labels y = [c].
Proof.
  induction y as [| a y IH]; intros Hne Hall; [congruence |].
  inversion Hall as [| ? ? Ha Hy]; subst.
  destruct y as [| b y]; [reflexivity |].
  change (unique_labels (c :: b :: y)) with (insert_label c (unique_labels (b :: y))).
  rewrite IH; [| discriminate | assumption].
  simpl. rewrite Nat.ltb_irrefl, Nat.eqb_refl. reflexivity.
Qed.

(** ** Pure label vectors *)

Lemma build_tree_constant (fuel : nat) (md : option nat) (X : matrix)
    (y : labels) (depth : nat) (c : label) :
  y <> [] -> Forall (fun l => l = c) y ->
  _build_tree (S fuel) md X y depth = Ok (Leaf c).
Proof.
  intros Hne Hall. simpl.
  rewrite (unique_labels_constant c y Hne Hall). reflexivity.
Qed.

Lemma predict_leaf (md : option nat) (c : label) (X : matrix) :
  predict {| max_depth := md; tree := Some (Leaf c) |} X
  = Ok (repeat c (length X)).
Proof. unfold predict; simpl. apply comprehension_const. Qed.

(** C3. When all the labels of a non-empty [y] are the same label [c],
    [fit] returns (with any positive fuel, whatever [X] and [max_depth]
    are) and stores the single leaf [Leaf c]; on the fitted model
    [predict] answers [c] for every row of any matrix. *)
Theorem fit_constant_labels_leaf (fuel : nat) (self : CustomDecisionTree)
    (X Xtest : matrix) (y : labels) (c : label) :
  y <> [] -> Forall (fun l => l = c) y ->
  exists self',
    fit (S fuel) self X y = Ok self'
    /\ tree self' = Some (Leaf c)
    /\ predict self' Xtest = Ok (repeat c (length Xtest)).
Proof.
  intros Hne Hall.
  exists {| max_depth := max_depth self; tree := Some (Leaf c) |}.
  split; [| split].
  - unfold fit. rewrite (build_tree_constant fuel (max_depth self) X y 0 c Hne Hall).
    reflexivity.
  - reflexivity.
  - apply predict_leaf.
Qed.

Lemma fit_constant_labels_leaf_witness :
  exists self',
    fit 1 (init (Some 3)) [[1#1]; [7#2]; [5#1]]%Q [2; 2; 2] = Ok self'
    /\ tree self' = Some (Leaf 2)
    /\ predict self' [[0#1]; [9#1]]%Q = Ok (repeat 2 2).
Proof.
  apply (@fit_constant_labels_leaf 0 (init (Some 3))
           [[1#1]; [7#2]; [5#1]]%Q [[0#1]; [9#1]]%Q [2; 2; 2] 2).
  - discriminate.
  - repeat constructor.
Defined.

(** ** Prediction on a model that was never fitted *)

(** C6, as the code has it.  [predict] has no test for a missing tree: on
    a model that was never fitted it returns the empty list for an empty
    matrix, and for a matrix with at least one row it raises the
    [TypeError] of the membership test ['class' in None]. *)
Theorem predict_before_fit (md : option nat) (X : matrix) :
  predict (init md) X
  = match X with
    | [] => Ok []
    | _ :: _ => Raise TypeError
    end.
Proof. destruct X as [| x X]; reflexivity. Qed.

(** C6, refuted as stated: before any [fit], [predict] on the empty matrix
    does not fail at all. *)
Lemma predict_before_fit_no_failure :
  ~ (exists e : error, predict (init None) [] = Raise e).
Proof. intros [e He]. discriminate He. Qed.

(** ** Real-number facts about [log2] *)

Section Log2.

Local Open Scope R_scope.

Lemma ln2_pos : 0 < ln 2.
Proof. pose proof ln_lt_2. lra. Qed.

Lemma ln2_lt_1 : ln 2 < 1.
Proof.
  rewrite <- (ln_exp 1). apply ln_increasing; [lra |].
  pose proof (exp_ineq1 1). lra.
Qed.

Lemma eps_pos : 0 < eps.
Proof. unfold eps. lra. Qed.

Lemma log2_1 : log2 1 = 0.
Proof. unfold log2. rewrite ln_1. lra. Qed.

Lemma log2_lt (x z : R) : 0 < x -> x < z -> log2 x < log2 z.
Proof.
  intros Hx Hxz. unfold log2.
  apply Rmult_lt_compat_r; [apply Rinv_0_lt_compat, ln2_pos |].
  apply ln_increasing; assumption.
Qed.

Lemma log2_le (x z : R) : 0 < x -> x <= z -> log2 x <= log2 z.
Proof.
  intros Hx [Hlt | Heq]; [left; apply log2_lt; assumption | subst; right; reflexivity].
Qed.

Lemma log2_neg (x : R) : 0 < x -> x < 1 -> log2 x < 0.
Proof. intros Hx H1. rewrite <- log2_1. apply log2_lt; assumption. Qed.

Lemma log2_nonpos (x : R) : 0 < x -> x <= 1 -> log2 x <= 0.
Proof. intros Hx H1. rewrite <- log2_1. apply log2_le; assumption. Qed.

Lemma log2_pos (x : R) : 1 < x -> 0 < log2 x.
Proof. intros H1. rewrite <- log2_1. apply log2_lt; lra. Qed.

Lemma log2_half (x : R) : 0 < x -> log2 (x / 2) = log2 x - 1.
Proof.
  intros Hx. unfold log2.
  replace (x / 2) with (x * / 2) by reflexivity.
  rewrite ln_mult; [| assumption | lra].
  rewrite ln_Rinv; [| lra].
  pose proof ln2_pos. field. lra.
Qed.

(** [ln (1 + x) < x], hence [log2 (1 + x) < 2 x]. *)
Lemma log2_1p_lt (x : R) : 0 < x -> log2 (1 + x) < 2 * x.
Proof.
  intros Hx.
  assert (Hln : ln (1 + x) < x).
  { rewrite <- (ln_exp x) at 2. apply ln_increasing; [lra |].
    apply exp_ineq1; lra. }
  pose proof ln_lt_2 as H2. pose proof ln2_pos as Hp.
  unfold log2.
  apply (Rmult_lt_reg_r (ln 2)); [assumption |].
  unfold Rdiv. rewrite Rmult_assoc, Rinv_l; [| lra].
  nra.
Qed.

Lemma log2_1p_eps : 0 < log2 (1 + eps) < 2 * eps.
Proof.
  pose proof eps_pos. split; [apply log2_pos; lra | apply log2_1p_lt; lra].
Qed.

Lemma log2_1p_2eps : log2 (1 + eps) < log2 (1 + 2 * eps) < 4 * eps.
Proof.
  pose proof eps_pos. split; [apply log2_lt; lra |].
  pose proof (log2_1p_lt (2 * eps)). lra.
Qed.

End Log2.

(** ** Entropy *)

Section Entropy.

Local Open Scope R_scope.

Lemma list_max_repeat (c n : nat) : list_max (repeat c (S n)) = c.
Proof.
  induction n as [| n IH].
  - simpl. apply Nat.max_0_r.
  - change (repeat c (S (S n))) with (c :: repeat c (S n)).
    change (list_max (c :: repeat c (S n)))
      with (Nat.max c (list_max (repeat c (S n)))).
    rewrite IH. apply Nat.max_id.
Qed.

Lemma bincount_repeat (c n : nat) :
  bincount (repeat c (S n)) = (repeat 0 c ++ [S n])%nat.
Proof.
  unfold bincount. change (repeat c (S n)) with (c :: repeat c n) at 1.
  rewrite list_max_repeat, seq_S, map_app.
  change (map (count_occ Nat.eq_dec (repeat c (S n))) [0 + c]%nat)
    with [count_occ Nat.eq_dec (repeat c (S n)) c].
  rewrite (count_occ_repeat_eq Nat.eq_dec (S n) (eq_refl c)).
  f_equal.
  transitivity (map (fun _ : nat => 0%nat) (seq 0 c)).
  - apply map_ext_in. intros k Hk. apply in_seq in Hk.
    apply count_occ_repeat_neq. lia.
  - rewrite map_const, length_seq. reflexivity.
Qed.

Lemma entropy_unfold (y : labels) :
  _entropy y
  = - Rsum (map (fun c => INR c / INR (length y)
                          * log2 (INR c / INR (length y) + eps))
                (bincount y)).
Proof. unfold _entropy, class_probs. rewrite map_map. reflexivity. Qed.

Lemma Rsum_app (l1 l2 : list R) : Rsum (l1 ++ l2) = Rsum l1 + Rsum l2.
Proof.
  induction l1 as [| a l1 IH]; simpl; [lra |].
  fold (Rsum (l1 ++ l2)) (Rsum l1). rewrite IH. lra.
Qed.

Lemma Rsum_zero (l : list R) : Forall (fun x => x = 0) l -> Rsum l = 0.
Proof.
  induction 1 as [| a l Ha _ IH]; simpl; [reflexivity |].
  fold (Rsum l). rewrite Ha, IH. lra.
Qed.

Lemma Rsum_nonpos (l : list R) : Forall (fun x => x <= 0) l -> Rsum l <= 0.
Proof.
  induction 1 as [| a l Ha _ IH]; simpl; [lra |].
  fold (Rsum l). lra.
Qed.

Lemma Rsum_neg (l : list R) (a : R) :
  Forall (fun x => x <= 0) l -> In a l -> a < 0 -> Rsum l < 0.
Proof.
  intros Hall Hin Ha.
  apply in_split in Hin. destruct Hin as [l1 [l2 ->]].
  apply Forall_app in Hall. destruct Hall as [H1 H2].
  inversion H2 as [| ? ? _ H2']; subst.
  rewrite Rsum_app. simpl. fold (Rsum l2).
  pose proof (Rsum_nonpos _ H1). pose proof (Rsum_nonpos _ H2'). lra.
Qed.

(** The entropy of the empty array: the sum of no term. *)
Lemma entropy_nil : _entropy [] = 0.
Proof. unfold _entropy, class_probs. simpl. lra. Qed.

(** The entropy the code computes for a pure vector is the logarithm of
    [1 + 1e-9] with the sign changed. *)
Lemma entropy_repeat (c n : nat) :
  _entropy (repeat c (S n)) = - log2 (1 + eps).
Proof.
  rewrite entropy_unfold, bincount_repeat, map_app, Rsum_app.
  rewrite repeat_length.
  assert (Hn : INR (S n) <> 0) by (apply not_0_INR; discriminate).
  rewrite Rsum_zero.
  - cbn [map]. unfold Rsum. cbn [fold_right].
    replace (INR (S n) / INR (S n)) with 1 by (field; assumption). lra.
  - apply Forall_forall. intros x Hx. apply in_map_iff in Hx.
    destruct Hx as [k [<- Hk]]. apply repeat_spec in Hk. subst k.
    simpl INR. unfold Rdiv. rewrite !Rmult_0_l. reflexivity.
Qed.

Lemma constant_repeat (c : label) (y : labels) :
  y <> [] -> Forall (fun l => l = c) y ->
  exists n, y = repeat c (S n).
Proof.
  intros Hne Hall. destruct y as [| a y]; [congruence |].
  exists (length y). inversion Hall as [| ? ? Ha Hy]; subst.
  simpl. f_equal. apply Forall_eq_repeat.
  eapply Forall_impl; [| exact Hy]. intros l Hl; symmetry; exact Hl.
Qed.

Lemma entropy_constant (c : label) (y : labels) :
  y <> [] -> Forall (fun l => l = c) y -> _entropy y = - log2 (1 + eps).
Proof.
  intros Hne Hall. destruct (constant_repeat c y Hne Hall) as [n ->].
  apply entropy_repeat.
Qed.

Lemma entropy_constant_neg (c : label) (y : labels) :
  y <> [] -> Forall (fun l => l = c) y -> _entropy y < 0.
Proof.
  intros Hne Hall. rewrite (entropy_constant c y Hne Hall).
  pose proof eps_pos. assert (0 < log2 (1 + eps)) by (apply log2_pos; lra). lra.
Qed.

End Entropy.

Section MixedEntropy.

Local Open Scope R_scope.

Lemma count_occ_two (y : labels) (a b : label) :
  a <> b ->
  (count_occ Nat.eq_dec y a + count_occ Nat.eq_dec y b <= length y)%nat.
Proof.
  intros Hab. induction y as [| h y IH]; simpl; [lia |].
  destruct (Nat.eq_dec h a), (Nat.eq_dec h b); subst; try congruence; lia.
Qed.

Lemma In_le_list_max (y : labels) (a : label) :
  In a y -> (a <= list_max y)%nat.
Proof.
  intros Hin.
  assert (H : Forall (fun k => (k <= list_max y)%nat) y)
    by (apply list_max_le; apply Nat.le_refl).
  rewrite Forall_forall in H. apply H. exact Hin.
Qed.

Lemma In_bincount (y : labels) (a : label) :
  In a y -> In (count_occ Nat.eq_dec y a) (bincount y).
Proof.
  intros Hin. unfold bincount. destruct y as [| h y]; [contradiction |].
  apply in_map, in_seq. pose proof (In_le_list_max _ _ Hin). lia.
Qed.

Lemma bincount_entries (y : labels) (c : nat) :
  In c (bincount y) -> exists k, c = count_occ Nat.eq_dec y k.
Proof.
  unfold bincount. destruct y as [| h y]; [contradiction |].
  intros Hin. apply in_map_iff in Hin. destruct Hin as [k [<- _]].
  exists k; reflexivity.
Qed.

(** One summand of the entropy, for a class with [c] of the [n] samples. *)
Lemma term_nonpos (c n : nat) :
  (c + 1 <= n)%nat -> INR n <= 1000000000 ->
  INR c / INR n * log2 (INR c / INR n + eps) <= 0.
Proof.
  intros Hc Hn.
  assert (Hn0 : 0 < INR n) by (apply lt_0_INR; lia).
  assert (Hc0 : 0 <= INR c) by apply pos_INR.
  assert (Hc1 : INR c + 1 <= INR n).
  { replace 1 with (INR 1) by reflexivity. rewrite <- plus_INR.
    apply le_INR. exact Hc. }
  assert (Hp0 : 0 <= INR c / INR n)
    by (apply Rmult_le_pos; [assumption | left; apply Rinv_0_lt_compat; assumption]).
  assert (Hp1 : INR c / INR n + eps <= 1).
  { unfold eps. apply (Rmult_le_reg_r (INR n)); [assumption |].
    rewrite Rmult_plus_distr_r. unfold Rdiv at 1.
    rewrite Rmult_assoc, Rinv_l; lra. }
  pose proof eps_pos as He.
  assert (Hl : log2 (INR c / INR n + eps) <= 0) by (apply log2_nonpos; lra).
  nra.
Qed.

Lemma term_neg (c n : nat) :
  (1 <= c)%nat -> (2 * c <= n)%nat ->
  INR c / INR n * log2 (INR c / INR n + eps) < 0.
Proof.
  intros Hc Hn.
  assert (Hn0 : 0 < INR n) by (apply lt_0_INR; lia).
  assert (Hc0 : 0 < INR c) by (apply lt_0_INR; lia).
  assert (Hc2 : 2 * INR c <= INR n).
  { replace 2 with (INR 2) by reflexivity. rewrite <- mult_INR.
    apply le_INR. exact Hn. }
  assert (Hp0 : 0 < INR c / INR n)
    by (apply Rmult_lt_0_compat; [assumption | apply Rinv_0_lt_compat; assumption]).
  assert (Hp1 : INR c / INR n <= 1 / 2).
  { apply (Rmult_le_reg_r (INR n)); [assumption |].
    unfold Rdiv at 1. rewrite Rmult_assoc, Rinv_l; lra. }
  assert (Hl : log2 (INR c / INR n + eps) < 0)
    by (apply log2_neg; unfold eps; lra).
  nra.
Qed.

Lemma entropy_mixed_pos (y : labels) (a b : label) :
  In a y -> In b y -> a <> b ->
  (Z.of_nat (length y) <= 1000000000)%Z ->
  0 < _entropy y.
Proof.
  intros Ha Hb Hab Hlen.
  assert (Hn : INR (length y) <= 1000000000).
  { rewrite INR_IZR_INZ. apply IZR_le. exact Hlen. }
  set (f := fun c => INR c / INR (length y)
                     * log2 (INR c / INR (length y) + eps)).
  assert (Hall : Forall (fun x => x <= 0) (map f (bincount y))).
  { apply Forall_forall. intros x Hx. apply in_map_iff in Hx.
    destruct Hx as [c [<- Hc]]. apply bincount_entries in Hc.
    destruct Hc as [k ->]. apply term_nonpos; [| exact Hn].
    destruct (Nat.eq_dec k a) as [-> | Hka].
    - pose proof (count_occ_two y a b Hab).
      assert (count_occ Nat.eq_dec y b > 0)%nat by (apply count_occ_In; exact Hb).
      lia.
    - pose proof (count_occ_two y k a Hka).
      assert (count_occ Nat.eq_dec y a > 0)%nat by (apply count_occ_In; exact Ha).
      lia. }
  assert (Hex : exists k, In k y
             /\ (2 * count_occ Nat.eq_dec y k <= length y)%nat).
  { pose proof (count_occ_two y a b Hab).
    destruct (Nat.le_gt_cases (count_occ Nat.eq_dec y a)
                              (count_occ Nat.eq_dec y b)).
    - exists a; split; [assumption | lia].
    - exists b; split; [assumption | lia]. }
  destruct Hex as [k [Hk Hhalf]].
  assert (Hneg : f (count_occ Nat.eq_dec y k) < 0).
  { apply term_neg; [| exact Hhalf].
    assert (count_occ Nat.eq_dec y k > 0)%nat by (apply count_occ_In; exact Hk).
    lia. }
  rewrite entropy_unfold. fold f.
  pose proof (Rsum_neg _ _ Hall (in_map f _ _ (In_bincount _ _ Hk)) Hneg). lra.
Qed.

End MixedEntropy.

(** ** Entropy of a vector with a very rare label *)

Section RareLabel.

Local Open Scope R_scope.

Lemma ln_le (a b : R) : 0 < a -> a <= b -> ln a <= ln b.
Proof.
  intros Ha [Hlt | ->]; [left; apply ln_increasing; assumption | right; reflexivity].
Qed.

Lemma ln_1p_ge (x : R) : 0 <= x -> x / (1 + x) <= ln (1 + x).
Proof.
  intros Hx.
  assert (H1 : 0 < / (1 + x)) by (apply Rinv_0_lt_compat; lra).
  pose proof (exp_ineq1_le (- (x / (1 + x)))) as He.
  replace (1 + - (x / (1 + x))) with (/ (1 + x)) in He by (field; lra).
  apply (ln_le _ _ H1) in He.
  rewrite ln_exp, ln_Rinv in He by lra. lra.
Qed.

Lemma log2_1p_ge (x : R) : 0 <= x -> x <= 1 -> x / 2 <= log2 (1 + x).
Proof.
  intros H0 H1. pose proof (ln_1p_ge x H0) as Hln.
  assert (Hx : x / 2 <= x / (1 + x)).
  { unfold Rdiv. apply Rmult_le_compat_l; [exact H0 |].
    apply Rinv_le_contravar; lra. }
  pose proof ln2_pos as Hp. pose proof ln2_lt_1 as Hl.
  unfold log2. apply (Rmult_le_reg_r (ln 2)); [exact Hp |].
  unfold Rdiv at 2. rewrite Rmult_assoc, Rinv_l by lra.
  assert (0 <= x / 2) by lra. nra.
Qed.

Lemma log2_eps_ge : -30 <= log2 eps.
Proof.
  assert (H : log2 (/ 2 ^ 30) = -30).
  { unfold log2. rewrite ln_Rinv by (apply pow_lt; lra).
    rewrite ln_pow by lra. pose proof ln2_pos.
    rewrite INR_IZR_INZ. simpl Z.of_nat. field. lra. }
  rewrite <- H. apply log2_le; [apply Rinv_0_lt_compat, pow_lt; lra |].
  unfold eps. rewrite pow_IZR. simpl Z.pow.
  unfold Rdiv. rewrite Rmult_1_l.
  apply Rinv_le_contravar; lra.
Qed.

Lemma list_max_zeros (n : nat) : list_max (repeat 0%nat n) = 0%nat.
Proof. induction n as [| n IH]; simpl; [reflexivity | exact IH]. Qed.

Lemma bincount_rare (n : nat) :
  bincount (repeat 0%nat n ++ [1%nat]) = [n; 1%nat].
Proof.
  unfold bincount.
  destruct (repeat 0%nat n ++ [1%nat]) as [| h t] eqn:E.
  - destruct n; discriminate E.
  - rewrite <- E. rewrite list_max_app, list_max_zeros.
    cbn [list_max fold_right Nat.max seq map].
    rewrite !count_occ_app.
    rewrite (count_occ_repeat_eq Nat.eq_dec n (eq_refl 0%nat)).
    rewrite (count_occ_repeat_neq Nat.eq_dec (x := 1%nat) (y := 0%nat) n)
      by discriminate.
    cbn [count_occ]. simpl. rewrite Nat.add_0_r. reflexivity.
Qed.

Lemma entropy_rare (n : nat) :
  _entropy (repeat 0%nat n ++ [1%nat])
  = - (INR n / (INR n + 1) * log2 (INR n / (INR n + 1) + eps)
       + 1 / (INR n + 1) * log2 (1 / (INR n + 1) + eps)).
Proof.
  rewrite entropy_unfold, bincount_rare.
  rewrite length_app, repeat_length. cbn [length map].
  unfold Rsum. cbn [fold_right].
  rewrite plus_INR. simpl (INR 1). lra.
Qed.

Lemma entropy_rare_neg (n : nat) :
  INR n = 100000000000 -> _entropy (repeat 0%nat n ++ [1%nat]) < 0.
Proof.
  intros Hn. rewrite entropy_rare, Hn.
  set (q := 1 / (100000000000 + 1)).
  assert (Hq : 0 < q < 1 / 100000000000).
  { unfold q. split.
    - apply Rdiv_lt_0_compat; lra.
    - unfold Rdiv. rewrite !Rmult_1_l. apply Rinv_lt_contravar; lra. }
  replace (100000000000 / (100000000000 + 1)) with (1 - q)
    by (unfold q; field; lra).
  assert (Hx : (eps - q) / 2 <= log2 (1 + (eps - q)))
    by (apply log2_1p_ge; unfold eps; lra).
  replace (1 - q + eps) with (1 + (eps - q)) by lra.
  assert (Hl : -30 <= log2 (q + eps)).
  { eapply Rle_trans; [apply log2_eps_ge |].
    apply log2_le; [apply eps_pos | lra]. }
  assert (Hq' : q * (100000000000 + 1) = 1) by (unfold q; field; lra).
  unfold eps in *. nra.
Qed.

End RareLabel.

(** ** Entropy of pure and of mixed label vectors *)

(** C4, as the code has it.  For a label vector that is not empty: when
    all its labels are equal, [_entropy] returns [- log2 (1 + 1e-9)], a
    negative number above [-2e-9] and not 0; when it holds two different
    labels and has at most 10^9 elements, [_entropy] returns a strictly
    positive number. *)
Theorem entropy_pure_and_mixed (y : labels) :
  y <> [] ->
  (forall c, Forall (fun l => l = c) y ->
     _entropy y = (- log2 (1 + eps))%R
     /\ (- (2 / 1000000000) < _entropy y < 0)%R)
  /\ (forall a b, In a y -> In b y -> a <> b ->
        (Z.of_nat (length y) <= 1000000000)%Z ->
        (0 < _entropy y)%R).
Proof.
  intros Hne. split.
  - intros c Hall. split; [apply (entropy_constant c y Hne Hall) |].
    rewrite (entropy_constant c y Hne Hall).
    pose proof log2_1p_eps as H. unfold eps in H at 3. lra.
  - intros a b Ha Hb Hab Hlen. exact (entropy_mixed_pos y a b Ha Hb Hab Hlen).
Qed.

Lemma entropy_pure_and_mixed_witness :
  (_entropy [3; 3; 3]%nat < 0)%R /\ (0 < _entropy [0; 1; 1]%nat)%R.
Proof.
  split.
  - apply (proj1 (entropy_pure_and_mixed [3; 3; 3] ltac:(discriminate)) 3).
    repeat constructor.
  - apply (proj2 (entropy_pure_and_mixed [0; 1; 1] ltac:(discriminate))
             0 1).
    + left; reflexivity.
    + right; left; reflexivity.
    + discriminate.
    + vm_compute. discriminate.
Defined.

(** C4, refuted as stated: the entropy of the pure vector [[0, 0]] is not
    0, and the entropy of a vector of 10^11 labels 0 and one label 1, which
    holds two labels, is not positive. *)
Lemma entropy_not_zero_nor_positive :
  _entropy [0; 0] <> 0%R /\ ~ (0 < _entropy y_imbalanced)%R.
Proof.
  split.
  - pose proof (@entropy_constant_neg 0 [0; 0] ltac:(discriminate)
                  ltac:(repeat constructor)). lra.
  - assert (H : (_entropy y_imbalanced < 0)%R).
    { unfold y_imbalanced. apply entropy_rare_neg.
      rewrite INR_IZR_INZ, Z2Nat.id by lia. reflexivity. }
    lra.
Qed.

(** ** The search as a fold over the candidates *)

Lemma for_each_pure {S A : Type} (body : S -> A -> result S) (g : S -> A -> S)
    (l : list A) (s : S) :
  (forall s' a, In a l -> body s' a = Ok (g s' a)) ->
  for_each body l s = Ok (fold_left g l s).
Proof.
  revert s; induction l as [| a l IH]; intros s Hb; simpl; [reflexivity |].
  rewrite Hb by (left; reflexivity). simpl.
  apply IH. intros s' a' Ha'. apply Hb. right; exact Ha'.
Qed.

Lemma for_each_map {S A B : Type} (body : S -> B -> result S) (h : A -> B)
    (l : list A) (s : S) :
  for_each body (map h l) s = for_each (fun s' a => body s' (h a)) l s.
Proof.
  revert s; induction l as [| a l IH]; intros s; simpl; [reflexivity |].
  destruct (body s (h a)); simpl; [apply IH | reflexivity | reflexivity].
Qed.

(** Two nested loops visit the pairs of [flat_map] in order. *)
Lemma for_each_nested {S A B : Type} (body : A -> S -> B -> result S)
    (inner : A -> list B) (outer : list A) (s : S) :
  for_each (fun s' a => for_each (body a) (inner a) s') outer s
  = for_each (fun s' v => body (fst v) s' (snd v))
             (flat_map (fun a => map (pair a) (inner a)) outer) s.
Proof.
  revert s; induction outer as [| a outer IH]; intros s; simpl; [reflexivity |].
  rewrite for_each_app, for_each_map. simpl.
  destruct (for_each (body a) (inner a) s); simpl;
    [apply IH | reflexivity | reflexivity].
Qed.

Lemma search_visits (X : matrix) (y : labels) :
  search X y
  = for_each (fun st v => try_threshold X y (fst v) st (snd v))
             (visits X) search_init.
Proof.
  unfold search, try_feature, visits.
  apply (for_each_nested (try_threshold X y)
           (fun f => unique_values (column X f))).
Qed.

Lemma search_upto_all (X : matrix) (y : labels) :
  search X y = search_upto X y (length (visits X)).
Proof. unfold search_upto. rewrite firstn_all. apply search_visits. Qed.

Lemma information_gain_ok (y l r : labels) :
  y <> [] ->
  _information_gain y l r
  = Ok (_entropy y
        - (INR (length l) / INR (length y) * _entropy l
           + INR (length r) / INR (length y) * _entropy r))%R.
Proof.
  intros Hne. unfold _information_gain.
  destruct y as [| a y]; [congruence | reflexivity].
Qed.

Lemma try_threshold_step (X : matrix) (y : labels) (f : nat)
    (st : search_state) (t : Q) :
  length X = length y -> y <> [] ->
  try_threshold X y f st t = Ok (step y st (split_at X y f t)).
Proof.
  intros Hlen Hne. unfold try_threshold, mask_index.
  rewrite !length_map. unfold column. rewrite length_map.
  assert (Hlen' : @length (list Q) X = length y) by exact Hlen.
  rewrite Hlen', Nat.eqb_refl. simpl bind.
  rewrite information_gain_ok by assumption. simpl bind.
  unfold step, gain, split_at. simpl.
  destruct (gt_bound _ (fst st)); reflexivity.
Qed.

Lemma fold_left_through_map {S A B : Type} (g : S -> B -> S) (h : A -> B)
    (l : list A) (s : S) :
  fold_left g (map h l) s = fold_left (fun s' a => g s' (h a)) l s.
Proof.
  revert s; induction l as [| a l IH]; intros s; simpl; [reflexivity | apply IH].
Qed.

Lemma search_upto_fold (X : matrix) (y : labels) (k : nat) :
  length X = length y -> y <> [] ->
  search_upto X y k
  = Ok (fold_left (step y) (firstn k (candidates X y)) search_init).
Proof.
  intros Hlen Hne. unfold search_upto, candidates.
  rewrite firstn_map, fold_left_through_map.
  apply for_each_pure. intros st v _. apply try_threshold_step; assumption.
Qed.

Lemma search_fold (X : matrix) (y : labels) :
  length X = length y -> y <> [] ->
  search X y = Ok (fold_left (step y) (candidates X y) search_init).
Proof.
  intros Hlen Hne. rewrite search_upto_all, search_upto_fold by assumption.
  rewrite <- (length_map (fun v => split_at X y (fst v) (snd v))).
  fold (candidates X y). rewrite firstn_all. reflexivity.
Qed.

(** ** The loop keeps the first candidate of greatest gain *)

Section FirstMax.

Variable y : labels.

Local Open Scope R_scope.

Lemma gt_bound_Fin (g h : R) : gt_bound g (Fin h) = true <-> g > h.
Proof.
  simpl. destruct (Rgt_dec g h) as [H | H]; split; intros H';
    try assumption; try reflexivity; try discriminate; contradiction.
Qed.

Lemma step_init (c : split) : step y search_init c = (Fin (gain y c), Some c).
Proof. reflexivity. Qed.

Lemma step_take (g : R) (o : option split) (c : split) :
  g < gain y c -> step y (Fin g, o) c = (Fin (gain y c), Some c).
Proof.
  intros H. unfold step. simpl fst.
  destruct (gt_bound (gain y c) (Fin g)) eqn:E; [reflexivity |].
  assert (E' : gt_bound (gain y c) (Fin g) = true) by (apply gt_bound_Fin; lra).
  congruence.
Qed.

Lemma step_keep (g : R) (o : option split) (c : split) :
  gain y c <= g -> step y (Fin g, o) c = (Fin g, o).
Proof.
  intros H. unfold step. simpl fst.
  destruct (gt_bound (gain y c) (Fin g)) eqn:E; [| reflexivity].
  apply gt_bound_Fin in E. lra.
Qed.

Lemma le_bound_refl (a : gain_bound) : le_bound a a.
Proof. destruct a; simpl; [exact I | lra]. Qed.

Lemma le_bound_trans (a b c : gain_bound) :
  le_bound a b -> le_bound b c -> le_bound a c.
Proof. destruct a, b, c; simpl; try tauto; lra. Qed.

(** One iteration never lowers [best_info_gain]. *)
Lemma step_monotone (st : search_state) (c : split) :
  le_bound (fst st) (fst (step y st c)).
Proof.
  destruct st as [[| g] o].
  - exact I.
  - destruct (Rle_or_lt (gain y c) g) as [H | H].
    + rewrite step_keep by assumption. simpl. lra.
    + rewrite step_take by assumption. simpl. lra.
Qed.

Lemma fold_step_monotone (l : list split) (st : search_state) :
  le_bound (fst st) (fst (fold_left (step y) l st)).
Proof.
  revert st; induction l as [| c l IH]; intros st; simpl.
  - apply le_bound_refl.
  - eapply le_bound_trans; [apply step_monotone | apply IH].
Qed.

Lemma fold_step_keep (l : list split) (b : split) :
  (forall c, In c l -> gain y c <= gain y b) ->
  fold_left (step y) l (Fin (gain y b), Some b) = (Fin (gain y b), Some b).
Proof.
  induction l as [| c l IH]; intros H; simpl; [reflexivity |].
  rewrite step_keep by (apply H; left; reflexivity).
  apply IH. intros c' Hc'. apply H. right; exact Hc'.
Qed.

(** What the loop holds after the candidates of [l]. *)
Lemma fold_step_first_max (l : list split) :
  match fold_left (step y) l search_init with
  | (NegInf, None) => l = []
  | (Fin g, Some b) => g = gain y b /\ first_max y l b
  | _ => False
  end.
Proof.
  induction l as [| c l IH] using rev_ind; [reflexivity |].
  rewrite fold_left_app. simpl fold_left.
  destruct (fold_left (step y) l search_init) as [[| g] [b |]];
    try contradiction.
  - subst l. simpl. split; [reflexivity |].
    exists [], []. split; [reflexivity |]. split; intros c' [].
  - destruct IH as [-> [l1 [l2 [-> [H1 H2]]]]].
    destruct (Rle_or_lt (gain y c) (gain y b)) as [H | H].
    + rewrite step_keep by assumption. split; [reflexivity |].
      exists l1, (l2 ++ [c]). split; [| split].
      * rewrite <- app_assoc. reflexivity.
      * exact H1.
      * intros c' Hc'. apply in_app_or in Hc'.
        destruct Hc' as [Hc' | [<- | []]]; [apply H2; exact Hc' | exact H].
    + rewrite step_take by assumption. split; [reflexivity |].
      exists (l1 ++ b :: l2), []. split; [reflexivity |]. split.
      * intros c' Hc'. apply in_app_or in Hc'.
        destruct Hc' as [Hc' | [<- | Hc']].
        -- specialize (H1 _ Hc'). lra.
        -- exact H.
        -- specialize (H2 _ Hc'). lra.
      * intros c' [].
Qed.

(** Conversely, the first candidate of greatest gain is what the loop
    ends with. *)
Lemma first_max_fold (l : list split) (b : split) :
  first_max y l b ->
  fold_left (step y) l search_init = (Fin (gain y b), Some b).
Proof.
  intros [l1 [l2 [-> [H1 H2]]]].
  rewrite fold_left_app. simpl fold_left.
  pose proof (fold_step_first_max l1) as Hl1.
  destruct (fold_left (step y) l1 search_init) as [[| g] [b' |]];
    try contradiction.
  - rewrite step_init. apply fold_step_keep; exact H2.
  - destruct Hl1 as [-> [l3 [l4 [-> _]]]].
    rewrite step_take by (apply H1, in_or_app; right; left; reflexivity).
    apply fold_step_keep; exact H2.
Qed.

End FirstMax.

(** ** The scenario of four samples *)

Section FourSamples.

Local Open Scope R_scope.

Lemma candidates_X4 : candidates X4 y4 = [c4_1; c4_2; c4_3; c4_4].
Proof. reflexivity. Qed.

Ltac entropy_eval counts :=
  rewrite entropy_unfold;
  match goal with
  | |- context [bincount ?y] => change (bincount y) with counts
  end;
  cbn [map length]; unfold Rsum; cbn [fold_right];
  rewrite ?INR_IZR_INZ; cbn [Z.of_nat Pos.of_succ_nat Pos.succ].

Lemma entropy_y4 : _entropy y4 = 1 - log2 (1 + 2 * eps).
Proof.
  unfold y4. entropy_eval [2; 2]%nat.
  replace (2 / 4 + eps) with ((1 + 2 * eps) / 2) by lra.
  pose proof eps_pos. rewrite log2_half by lra. lra.
Qed.

Lemma entropy_00 : _entropy [0; 0]%nat = - log2 (1 + eps).
Proof. apply (entropy_repeat 0 1). Qed.

Lemma entropy_11 : _entropy [1; 1]%nat = - log2 (1 + eps).
Proof. apply (entropy_repeat 1 1). Qed.

Lemma entropy_0 : _entropy [0]%nat = - log2 (1 + eps).
Proof. apply (entropy_repeat 0 0). Qed.

Lemma entropy_1 : _entropy [1]%nat = - log2 (1 + eps).
Proof. apply (entropy_repeat 1 0). Qed.

Lemma log2_third : log2 (1 / 3 + eps) < -1.
Proof.
  assert (H : log2 (1 / 3 + eps) < log2 (1 / 2))
    by (apply log2_lt; unfold eps; lra).
  rewrite log2_half, log2_1 in H by lra. lra.
Qed.

Lemma log2_two_thirds : log2 (2 / 3 + eps) < 0.
Proof. apply log2_neg; unfold eps; lra. Qed.

Lemma entropy_011 : 1 / 3 < _entropy [0; 1; 1]%nat.
Proof.
  entropy_eval [1; 2]%nat.
  pose proof log2_third. pose proof log2_two_thirds. lra.
Qed.

Lemma entropy_001 : 1 / 3 < _entropy [0; 0; 1]%nat.
Proof.
  entropy_eval [2; 1]%nat.
  pose proof log2_third. pose proof log2_two_thirds. lra.
Qed.

(** The gain of the split at threshold 2. *)
Lemma gain_c4_2 :
  gain y4 c4_2 = 1 - log2 (1 + 2 * eps) + log2 (1 + eps).
Proof.
  unfold gain, c4_2. cbn [left_y right_y].
  rewrite entropy_y4, entropy_00, entropy_11.
  unfold y4. cbn [length]. rewrite !INR_IZR_INZ.
  cbn [Z.of_nat Pos.of_succ_nat Pos.succ]. lra.
Qed.

Lemma gain_c4_2_bounds : 1 - 4 * eps < gain y4 c4_2 < 1.
Proof.
  rewrite gain_c4_2. pose proof log2_1p_eps. pose proof log2_1p_2eps. lra.
Qed.

Lemma gain_c4_1 : gain y4 c4_1 < 4 / 5.
Proof.
  unfold gain, c4_1. cbn [left_y right_y].
  rewrite entropy_y4, entropy_0.
  unfold y4. cbn [length]. rewrite !INR_IZR_INZ.
  cbn [Z.of_nat Pos.of_succ_nat Pos.succ].
  pose proof entropy_011. pose proof log2_1p_eps. pose proof log2_1p_2eps.
  unfold eps in *. lra.
Qed.

Lemma gain_c4_3 : gain y4 c4_3 < 4 / 5.
Proof.
  unfold gain, c4_3. cbn [left_y right_y].
  rewrite entropy_y4, entropy_1.
  unfold y4. cbn [length]. rewrite !INR_IZR_INZ.
  cbn [Z.of_nat Pos.of_succ_nat Pos.succ].
  pose proof entropy_001. pose proof log2_1p_eps. pose proof log2_1p_2eps.
  unfold eps in *. lra.
Qed.

Lemma gain_c4_4 : gain y4 c4_4 = 0.
Proof.
  unfold gain, c4_4. cbn [left_y right_y].
  rewrite entropy_nil. fold y4.
  generalize (_entropy y4). intros h.
  unfold y4. cbn [length]. rewrite !INR_IZR_INZ.
  cbn [Z.of_nat Pos.of_succ_nat Pos.succ]. lra.
Qed.

(** The search on the four samples ends with the split at threshold 2. *)
Lemma search_X4 : search X4 y4 = Ok (Fin (gain y4 c4_2), Some c4_2).
Proof.
  rewrite search_fold; [| reflexivity | discriminate].
  rewrite candidates_X4. f_equal. apply first_max_fold.
  exists [c4_1], [c4_3; c4_4]. split; [reflexivity |].
  pose proof gain_c4_2_bounds as H2. unfold eps in H2.
  split.
  - intros c [<- | []]. pose proof gain_c4_1. lra.
  - intros c [<- | [<- | []]].
    + pose proof gain_c4_3. lra.
    + rewrite gain_c4_4. lra.
Qed.

End FourSamples.

(** ** One call of [_build_tree] that splits *)

Lemma build_tree_split (fuel : nat) (md : option nat) (X : matrix)
    (y : labels) (depth : nat) (g : gain_bound) (best_split : split) :
  (forall c, unique_labels y <> [c]) ->
  stops_early md X depth = false ->
  search X y = Ok (g, Some best_split) ->
  _build_tree (S fuel) md X y depth
  = (XL <- take_rows X (left_y best_split) ;;
     left_tree <- _build_tree fuel md XL (left_y best_split) (S depth) ;;
     XR <- take_rows X (right_y best_split) ;;
     right_tree <- _build_tree fuel md XR (right_y best_split) (S depth) ;;
     Ok (Internal (feature_idx best_split) (threshold best_split)
                  left_tree right_tree)).
Proof.
  intros Hu Hstop Hsearch. unfold stops_early in Hstop.
  cbn [_build_tree]. rewrite Hstop, Hsearch. cbn [bind snd].
  destruct (unique_labels y) as [| c [| c' l]]; try reflexivity.
  exfalso. apply (Hu c). reflexivity.
Qed.

Lemma unique_y4 (c : label) : unique_labels y4 <> [c].
Proof. discriminate. Qed.

(** With [max_depth] 1, 0 or [None] alike, the builder splits the four
    samples at threshold 2. *)
Lemma build_tree_X4 (fuel : nat) (md : option nat) :
  stops_early md X4 0 = false ->
  _build_tree (S (S fuel)) md X4 y4 0
  = Ok (Internal 0 2%Q (Leaf 0) (Leaf 1)).
Proof.
  intros Hstop.
  rewrite (@build_tree_split (S fuel) md X4 y4 0 _ _ unique_y4 Hstop search_X4).
  cbn [left_y right_y c4_2 feature_idx threshold].
  change (take_rows X4 [0; 0]) with (Ok [[1%Q]; [1%Q]]).
  change (take_rows X4 [1; 1]) with (Ok [[2%Q]; [2%Q]]).
  cbn [bind].
  rewrite (@build_tree_constant fuel md [[1%Q]; [1%Q]] [0; 0] 1 0);
    [| discriminate | repeat constructor].
  cbn [bind].
  rewrite (@build_tree_constant fuel md [[2%Q]; [2%Q]] [1; 1] 1 1);
    [| discriminate | repeat constructor].
  reflexivity.
Qed.

(** C8, as the code has it.  On [X = [[1],[2],[3],[4]]], [y = [0,0,1,1]]
    and [max_depth = 1], [fit] returns with any fuel of two or more; the
    search ends on feature 0 and threshold 2, the stored tree is
    [Internal 0 2 (Leaf 0) (Leaf 1)] and [predict] on the same four rows
    answers [[0,0,1,1]].  The gain of that split is not 1 but a number
    strictly between [1 - 4e-9] and [1], because of the constant [1e-9]
    added inside the logarithm. *)
Theorem four_samples_round_trip (fuel : nat) :
  exists (self : CustomDecisionTree) (g : R),
    fit (S (S fuel)) (init (Some 1)) X4 y4 = Ok self
    /\ tree self = Some (Internal 0 2%Q (Leaf 0) (Leaf 1))
    /\ predict self X4 = Ok [0; 0; 1; 1]
    /\ search X4 y4
       = Ok (Fin g, Some {| feature_idx := 0; threshold := 2%Q;
                            left_y := [0; 0]; right_y := [1; 1] |})
    /\ _information_gain y4 [0; 0] [1; 1] = Ok g
    /\ (1 - 4 / 1000000000 < g < 1)%R.
Proof.
  exists {| max_depth := Some 1;
            tree := Some (Internal 0 2%Q (Leaf 0) (Leaf 1)) |},
         (gain y4 c4_2).
  split; [| split; [| split; [| split; [| split]]]].
  - unfold fit, init. cbn [max_depth].
    rewrite build_tree_X4 by reflexivity. reflexivity.
  - reflexivity.
  - reflexivity.
  - exact search_X4.
  - rewrite information_gain_ok by discriminate. reflexivity.
  - pose proof gain_c4_2_bounds as H. unfold eps in H. lra.
Qed.

(** C8, refuted as stated: the gain of the split at threshold 2 is not
    the number 1. *)
Lemma four_samples_gain_not_one :
  _information_gain y4 [0; 0] [1; 1] <> Ok 1%R.
Proof.
  rewrite information_gain_ok by discriminate.
  intros H. injection H as H.
  change (gain y4 c4_2 = 1%R) in H.
  pose proof gain_c4_2_bounds. lra.
Qed.

(** [max_depth = 0] builds the tree that [max_depth = None] builds. *)
Lemma build_tree_zero_is_unset (fuel : nat) (X : matrix) (y : labels)
    (depth : nat) :
  _build_tree fuel (Some 0) X y depth = _build_tree fuel None X y depth.
Proof.
  revert X y depth. induction fuel as [| fuel IH]; intros X y depth;
    [reflexivity |].
  cbn [_build_tree truthy depth_reached andb].
  destruct (unique_labels y) as [| c [| c' u]]; try reflexivity;
    (destruct ((num_samples X =? 0) || false); [reflexivity |];
     destruct (search X y) as [[g [bs |]] | e |]; cbn [bind snd];
       try reflexivity;
     destruct (take_rows X (left_y bs)) as [XL | e |]; cbn [bind];
       try reflexivity;
     rewrite IH;
     destruct (_build_tree fuel None XL (left_y bs) (S depth)); cbn [bind];
       try reflexivity;
     destruct (take_rows X (right_y bs)) as [XR | e' |]; cbn [bind];
       try reflexivity;
     rewrite IH; reflexivity).
Qed.

(** C1 at the four samples.  With [max_depth = 0] the test
    [self.max_depth and depth >= self.max_depth] is false at every depth:
    the builder does what it does when [max_depth] is unset.  On the four
    samples the search runs and [fit] stores a tree with an internal
    root, although the majority leaf of [y] is [Leaf 0]. *)
Theorem fit_max_depth_zero_splits (fuel : nat) :
  fit (S (S fuel)) (init (Some 0)) X4 y4
  = Ok {| max_depth := Some 0;
          tree := Some (Internal 0 2%Q (Leaf 0) (Leaf 1)) |}
  /\ majority_leaf y4 = Ok (Leaf 0)
  /\ (forall n X y depth,
        _build_tree n (Some 0) X y depth = _build_tree n None X y depth).
Proof.
  split; [| split; [reflexivity | exact build_tree_zero_is_unset]].
  unfold fit, init. cbn [max_depth].
  rewrite build_tree_X4 by reflexivity. reflexivity.
Qed.

(** ** Constant feature columns *)

Section ConstantFeatures.

Local Open Scope R_scope.

(** A candidate that sends every sample to the left has gain 0. *)
Lemma gain_all_left (y : labels) (f : nat) (t : Q) :
  y <> [] ->
  gain y {| feature_idx := f; threshold := t; left_y := y; right_y := [] |} = 0.
Proof.
  intros Hne. unfold gain. cbn [left_y right_y length].
  rewrite entropy_nil.
  assert (Hn : INR (length y) <> 0).
  { apply not_0_INR. destruct y; [congruence | discriminate]. }
  simpl INR. field. exact Hn.
Qed.

Lemma search_X10 : search X10 y10 = Ok (Fin (gain y10 c10), Some c10).
Proof. rewrite search_fold; [reflexivity | reflexivity | discriminate]. Qed.

Lemma search_X2 : search X2 y2 = Ok (Fin (gain y2 c2), Some c2).
Proof. rewrite search_fold; [reflexivity | reflexivity | discriminate]. Qed.

End ConstantFeatures.

(** C9 at ten samples of one constant feature and two labels, with
    [max_depth] unset.  The search records the split that sends every
    sample to the left (its gain, 0, is greater than [-inf]); the left
    recursive call receives [X[y]], which is [X] again, and [y] itself.
    Hence no amount of fuel is enough: the call never returns a tree,
    although the majority leaf of [y] is [Leaf 0]. *)
Theorem build_tree_constant_features_diverges (fuel depth : nat) :
  _build_tree fuel None X10 y10 depth = OutOfFuel
  /\ search X10 y10 = Ok (Fin 0%R, Some c10)
  /\ take_rows X10 (left_y c10) = Ok X10
  /\ majority_leaf y10 = Ok (Leaf 0).
Proof.
  split; [| split; [| split]]; try reflexivity.
  - revert depth. induction fuel as [| fuel IH]; intros depth; [reflexivity |].
    rewrite (@build_tree_split fuel None X10 y10 depth _ _
               ltac:(discriminate) eq_refl search_X10).
    change (take_rows X10 (left_y c10)) with (Ok X10).
    cbn [bind left_y c10]. rewrite IH. reflexivity.
  - rewrite search_X10.
    replace (gain y10 c10) with 0%R
      by (symmetry; apply gain_all_left; discriminate).
    reflexivity.
Qed.

(** ** The arrays passed to the recursive calls *)

(** [X[idx]] holds, at each position, the row of [X] whose number is the
    entry of [idx] at that position. *)
Lemma take_rows_spec (X : matrix) (idx : list nat) (XS : matrix) :
  take_rows X idx = Ok XS ->
  Forall2 (fun i r => nth_error X i = Some r) idx XS.
Proof.
  revert XS; induction idx as [| i idx IH]; intros XS H; simpl in H.
  - injection H as <-. constructor.
  - destruct (nth_error X i) as [r |] eqn:Hi; [| discriminate].
    apply bind_Ok in H. destruct H as [rs [Hrs H]].
    injection H as <-. constructor; [exact Hi | apply IH; exact Hrs].
Qed.

(** ** [np.unique] on a feature column *)

Section UniqueValues.

Local Open Scope Q_scope.

Lemma Qle_bool_false (a b : Q) : Qle_bool a b = false -> b < a.
Proof.
  intros H. apply Qnot_le_lt. intros Hle.
  apply Qle_bool_iff in Hle. congruence.
Qed.

Lemma insert_value_In (x a : Q) (l : list Q) :
  In a (insert_value x l) -> a = x \/ In a l.
Proof.
  induction l as [| h t IH]; simpl.
  - intros [<- | []]. left; reflexivity.
  - destruct (Qle_bool h x); [destruct (Qle_bool x h) |]; simpl.
    + intros H; right; exact H.
    + intros [<- | H]; [right; left; reflexivity |].
      destruct (IH H) as [-> | H']; [left; reflexivity | right; right; exact H'].
    + intros [<- | H]; [left; reflexivity | right; exact H].
Qed.

Lemma In_insert_value (x a : Q) (l : list Q) :
  In a l -> In a (insert_value x l).
Proof.
  induction l as [| h t IH]; simpl; [intros [] |].
  intros H. destruct (Qle_bool h x); [destruct (Qle_bool x h) |]; simpl.
  - exact H.
  - destruct H as [-> | H]; [left; reflexivity | right; apply IH; exact H].
  - right; exact H.
Qed.

(** The inserted value, or a value equal to it, is in the result. *)
Lemma insert_value_has (x : Q) (l : list Q) :
  exists x', In x' (insert_value x l) /\ x' == x.
Proof.
  induction l as [| h t IH]; simpl.
  - exists x. split; [left; reflexivity | reflexivity].
  - destruct (Qle_bool h x) eqn:Hhx; [destruct (Qle_bool x h) eqn:Hxh |].
    + exists h. split; [left; reflexivity |].
      apply Qle_antisym; apply Qle_bool_iff; assumption.
    + destruct IH as [x' [Hin Heq]]. exists x'. split; [right; exact Hin | exact Heq].
    + exists x. split; [left; reflexivity | reflexivity].
Qed.

Lemma insert_value_sorted (x : Q) (l : list Q) :
  StronglySorted Qlt l -> StronglySorted Qlt (insert_value x l).
Proof.
  induction 1 as [| h t Ht IH Hh]; simpl.
  - constructor; constructor.
  - destruct (Qle_bool h x) eqn:Hhx; [destruct (Qle_bool x h) eqn:Hxh |].
    + constructor; assumption.
    + constructor; [exact IH |].
      apply Forall_forall. intros a Ha.
      destruct (insert_value_In _ _ _ Ha) as [-> | Ha'].
      * apply Qle_bool_false. exact Hxh.
      * rewrite Forall_forall in Hh. apply Hh. exact Ha'.
    + apply Qle_bool_false in Hhx.
      constructor; [constructor; assumption |].
      constructor; [exact Hhx |].
      eapply Forall_impl; [| exact Hh].
      intros a Ha. eapply Qlt_trans; eassumption.
Qed.

(** The thresholds of a feature are visited in strictly ascending order. *)
Lemma unique_values_sorted (c : list Q) : StronglySorted Qlt (unique_values c).
Proof.
  induction c as [| x c IH]; simpl; [constructor |].
  apply insert_value_sorted. exact IH.
Qed.

(** Every threshold is a value of the column. *)
Lemma unique_values_In (c : list Q) (t : Q) :
  In t (unique_values c) -> In t c.
Proof.
  induction c as [| x c IH]; simpl; [intros [] |].
  intros H. destruct (insert_value_In _ _ _ H) as [-> | H'];
    [left; reflexivity | right; apply IH; exact H'].
Qed.

(** The greatest value of a column that is not empty is a threshold. *)
Lemma unique_values_max (c : list Q) :
  c <> [] ->
  exists t, In t (unique_values c) /\ forall v, In v c -> v <= t.
Proof.
  induction c as [| x c IH]; intros Hne; [congruence |].
  destruct c as [| x0 c].
  - exists x. split; [left; reflexivity |].
    intros v [<- | []]. apply Qle_refl.
  - destruct IH as [t [Hin Hmax]]; [discriminate |].
    change (unique_values (x :: x0 :: c))
      with (insert_value x (unique_values (x0 :: c))).
    destruct (Qlt_le_dec t x) as [Hlt | Hle].
    + destruct (insert_value_has x (unique_values (x0 :: c))) as [x' [Hx' Heq]].
      exists x'. split; [exact Hx' |].
      intros v [<- | Hv].
      * rewrite Heq. apply Qle_refl.
      * rewrite Heq. apply Qlt_le_weak.
        eapply Qle_lt_trans; [apply Hmax; exact Hv | exact Hlt].
    + exists t. split; [apply In_insert_value; exact Hin |].
      intros v [<- | Hv]; [exact Hle | apply Hmax; exact Hv].
Qed.

End UniqueValues.

(** ** Boolean masks *)

Lemma select_all {A : Type} (a : list A) (mask : list bool) :
  length a = length mask -> Forall (fun b => b = true) mask ->
  select a mask = a /\ select a (map negb mask) = [].
Proof.
  revert mask; induction a as [| x a IH]; intros [| b mask] Hlen Hall;
    simpl in *; try discriminate; [split; reflexivity |].
  inversion Hall as [| ? ? Hb Hm]; subst. simpl.
  destruct (IH mask) as [H1 H2]; [lia | exact Hm |].
  rewrite H1, H2. split; reflexivity.
Qed.

Lemma select_some {A : Type} (a : list A) (mask : list bool) :
  length a = length mask -> In true mask -> select a mask <> [].
Proof.
  revert mask; induction a as [| x a IH]; intros [| b mask] Hlen Hin;
    simpl in *; try discriminate; try contradiction.
  destruct b; [discriminate |].
  destruct Hin as [Hb | Hin]; [discriminate |].
  apply IH; [lia | exact Hin].
Qed.

(** When the complement of a mask selects nothing, the mask selects
    everything. *)
Lemma select_complement_nil {A : Type} (a : list A) (mask : list bool) :
  length a = length mask -> select a (map negb mask) = [] ->
  select a mask = a.
Proof.
  revert mask; induction a as [| x a IH]; intros [| b mask] Hlen H;
    simpl in *; try discriminate; [reflexivity |].
  destruct b; simpl in H; [| discriminate].
  f_equal. apply IH; [lia | exact H].
Qed.

(** ** The order of the visits *)

Section Visits.

Lemma sorted_app {A : Type} (R : A -> A -> Prop) (l1 l2 : list A) :
  StronglySorted R l1 -> StronglySorted R l2 ->
  (forall a b, In a l1 -> In b l2 -> R a b) ->
  StronglySorted R (l1 ++ l2).
Proof.
  intros H1 H2 H12. induction H1 as [| a l1 Hl1 IH Ha]; simpl; [exact H2 |].
  constructor.
  - apply IH. intros a' b Ha' Hb. apply H12; [right; exact Ha' | exact Hb].
  - apply Forall_app. split; [exact Ha |].
    apply Forall_forall. intros b Hb. apply H12; [left; reflexivity | exact Hb].
Qed.

Lemma sorted_map {A B : Type} (R : A -> A -> Prop) (R' : B -> B -> Prop)
    (h : A -> B) (l : list A) :
  (forall a b, R a b -> R' (h a) (h b)) ->
  StronglySorted R l -> StronglySorted R' (map h l).
Proof.
  intros Hh. induction 1 as [| a l Hl IH Ha]; simpl; constructor.
  - exact IH.
  - apply Forall_map. eapply Forall_impl; [| exact Ha].
    intros b Hb. apply Hh. exact Hb.
Qed.

Lemma sorted_split {A : Type} (R : A -> A -> Prop) (l1 l2 : list A) (b : A) :
  StronglySorted R (l1 ++ b :: l2) ->
  (forall c, In c l1 -> R c b) /\ (forall c, In c l2 -> R b c).
Proof.
  induction l1 as [| a l1 IH]; simpl; intros H.
  - inversion H as [| ? ? _ Hb]; subst. split; [intros c [] |].
    rewrite Forall_forall in Hb. exact Hb.
  - inversion H as [| ? ? Hs Ha]; subst.
    destruct (IH Hs) as [H1 H2]. split; [| exact H2].
    intros c [<- | Hc]; [| apply H1; exact Hc].
    rewrite Forall_forall in Ha. apply Ha. apply in_or_app.
    right; left; reflexivity.
Qed.

Variable X : matrix.

Lemma visits_from_sorted (start len : nat) :
  StronglySorted visited_before
    (flat_map (fun f => map (pair f) (unique_values (column X f)))
              (seq start len))
  /\ (forall v,
        In v (flat_map (fun f => map (pair f) (unique_values (column X f)))
                       (seq start len)) ->
        start <= fst v).
Proof.
  revert start; induction len as [| len IH]; intros start; simpl.
  - split; [constructor | intros v []].
  - destruct (IH (S start)) as [Hs Hge]. split.
    + apply sorted_app; [| exact Hs |].
      * apply (sorted_map Qlt); [| apply unique_values_sorted].
        intros a b Hab. right. split; [reflexivity | exact Hab].
      * intros a b Ha Hb. apply in_map_iff in Ha.
        destruct Ha as [t [<- _]]. left. simpl.
        specialize (Hge _ Hb). lia.
    + intros v Hv. apply in_app_or in Hv. destruct Hv as [Hv | Hv].
      * apply in_map_iff in Hv. destruct Hv as [t [<- _]]. simpl. lia.
      * specialize (Hge _ Hv). lia.
Qed.

(** Features ascending, and thresholds ascending within a feature. *)
Lemma visits_sorted : StronglySorted visited_before (visits X).
Proof. apply (visits_from_sorted 0 (num_features X)). Qed.

Lemma visits_In (f : nat) (t : Q) :
  In (f, t) (visits X)
  <-> f < num_features X /\ In t (unique_values (column X f)).
Proof.
  unfold visits. rewrite in_flat_map. split.
  - intros [f' [Hf' Hin]]. apply in_map_iff in Hin.
    destruct Hin as [t' [Heq Ht']]. injection Heq as -> ->.
    apply in_seq in Hf'. split; [lia | exact Ht'].
  - intros [Hf Ht]. exists f. split; [apply in_seq; lia |].
    apply in_map. exact Ht.
Qed.

End Visits.

(** ** The candidates *)

Section Candidates.

Variables (X : matrix) (y : labels).
Hypothesis Hlen : length X = length y.

Lemma candidates_sorted :
  StronglySorted (fun a b => visited_before (key a) (key b)) (candidates X y).
Proof.
  unfold candidates.
  apply (sorted_map visited_before); [| apply visits_sorted].
  intros a b Hab. exact Hab.
Qed.

Lemma candidate_form (c : split) :
  In c (candidates X y) ->
  exists f t, c = split_at X y f t
              /\ f < num_features X
              /\ In t (unique_values (column X f)).
Proof.
  unfold candidates. intros H. apply in_map_iff in H.
  destruct H as [[f t] [<- Hv]]. apply visits_In in Hv.
  exists f, t. split; [reflexivity | exact Hv].
Qed.

Lemma mask_length (f : nat) (t : Q) :
  length y = length (map (fun v => Qle_bool v t) (column X f)).
Proof. unfold column. rewrite !length_map. symmetry. exact Hlen. Qed.

(** The threshold is a value of the column, so the sample that carries it
    goes left. *)
Lemma candidate_left_nonempty (c : split) :
  In c (candidates X y) -> left_y c <> [].
Proof.
  intros H. destruct (candidate_form c H) as [f [t [-> [_ Ht]]]].
  unfold split_at. cbn [left_y].
  apply select_some; [apply mask_length |].
  apply unique_values_In in Ht.
  apply in_map_iff. exists t. split; [| exact Ht].
  apply Qle_bool_iff. apply Qle_refl.
Qed.

Lemma candidate_right_empty (c : split) :
  y <> [] -> In c (candidates X y) -> right_y c = [] ->
  left_y c = y /\ gain y c = 0%R.
Proof.
  intros Hne H Hr. destruct (candidate_form c H) as [f [t [-> _]]].
  unfold split_at in *. cbn [left_y right_y] in *.
  assert (Hl : select y (map (fun v => Qle_bool v t) (column X f)) = y)
    by (apply select_complement_nil; [apply mask_length | exact Hr]).
  split; [exact Hl |].
  rewrite Hl, Hr. apply gain_all_left. exact Hne.
Qed.

(** A search that has a candidate has one of gain 0: the greatest value
    of a column sends every sample to the left. *)
Lemma candidate_of_gain_zero :
  y <> [] -> candidates X y <> [] ->
  exists c, In c (candidates X y) /\ right_y c = [] /\ gain y c = 0%R.
Proof.
  intros Hne Hc.
  destruct (candidates X y) as [| c0 l] eqn:E; [congruence |].
  assert (H0 : In c0 (candidates X y)) by (rewrite E; left; reflexivity).
  destruct (candidate_form c0 H0) as [f [t [_ [Hf Ht]]]].
  assert (Hcol : column X f <> []).
  { apply unique_values_In in Ht. intros Hnil. rewrite Hnil in Ht.
    contradiction. }
  destruct (unique_values_max _ Hcol) as [tm [Htm Hmax]].
  assert (Hall : Forall (fun b => b = true)
                   (map (fun v => Qle_bool v tm) (column X f))).
  { apply Forall_map, Forall_forall. intros v Hv.
    apply Qle_bool_iff, Hmax. exact Hv. }
  destruct (select_all y _ (mask_length f tm) Hall) as [Hl Hr].
  exists (split_at X y f tm). rewrite <- E. split; [| split].
  - unfold candidates.
    change (split_at X y f tm)
      with ((fun v => split_at X y (fst v) (snd v)) (f, tm)).
    apply in_map. apply visits_In. split; assumption.
  - exact Hr.
  - unfold split_at. rewrite Hl, Hr. apply gain_all_left. exact Hne.
Qed.

Lemma first_max_In (l : list split) (b : split) : first_max y l b -> In b l.
Proof.
  intros [l1 [l2 [-> _]]]. apply in_or_app. right; left; reflexivity.
Qed.

Lemma first_max_greatest (l : list split) (b c : split) :
  first_max y l b -> In c l -> (gain y c <= gain y b)%R.
Proof.
  intros [l1 [l2 [-> [H1 H2]]]] Hc. apply in_app_or in Hc.
  destruct Hc as [Hc | [<- | Hc]].
  - specialize (H1 _ Hc). lra.
  - lra.
  - apply H2. exact Hc.
Qed.

(** What [search] returns. *)
Lemma search_result :
  y <> [] ->
  exists st, search X y = Ok st
    /\ match st with
       | (NegInf, None) => candidates X y = []
       | (Fin g, Some bs) => g = gain y bs /\ first_max y (candidates X y) bs
       | _ => False
       end.
Proof.
  intros Hne. rewrite (@search_fold X y Hlen Hne).
  eexists. split; [reflexivity |].
  apply fold_step_first_max.
Qed.

Lemma search_some (g : gain_bound) (bs : split) :
  y <> [] -> search X y = Ok (g, Some bs) ->
  g = Fin (gain y bs) /\ first_max y (candidates X y) bs.
Proof.
  intros Hne Hs. destruct (search_result Hne) as [st [Hst Hm]].
  rewrite Hs in Hst. injection Hst as <-.
  destruct g as [| r]; [contradiction |].
  destruct Hm as [-> Hfm]. split; [reflexivity | exact Hfm].
Qed.

End Candidates.

(** ** The split search: its result *)

(** C7.  The value of [best_info_gain] after [k] iterations of the search
    is at most its value after [k'] iterations when [k <= k'], and the
    whole search is the state after all the iterations.  When the search
    records a split, its gain is the number [_information_gain] returns
    for it, it is at least the gain of every candidate, and it is not
    negative. *)
Theorem best_gain_never_decreases (X : matrix) (y : labels) :
  length X = length y -> y <> [] ->
  (forall k k', k <= k' ->
     exists st st',
       search_upto X y k = Ok st /\ search_upto X y k' = Ok st'
       /\ le_bound (fst st) (fst st'))
  /\ search X y = search_upto X y (length (visits X))
  /\ (forall g bs, search X y = Ok (g, Some bs) ->
        exists r,
          g = Fin r
          /\ _information_gain y (left_y bs) (right_y bs) = Ok r
          /\ (forall c, In c (candidates X y) -> (gain y c <= r)%R)
          /\ (0 <= r)%R).
Proof.
  intros Hlen Hne. split; [| split].
  - intros k k' Hk.
    rewrite !(@search_upto_fold X y _ Hlen Hne).
    do 2 eexists. split; [reflexivity |]. split; [reflexivity |].
    replace k with (Nat.min k k') by lia.
    rewrite <- firstn_firstn.
    rewrite <- (firstn_skipn k (firstn k' (candidates X y))) at 2.
    rewrite fold_left_app. apply fold_step_monotone.
  - apply search_upto_all.
  - intros g bs Hs.
    destruct (search_some X y Hlen g bs Hne Hs) as [-> Hfm].
    exists (gain y bs). split; [reflexivity |].
    split; [apply information_gain_ok; exact Hne |].
    split.
    + intros c Hc. apply (first_max_greatest y _ bs c Hfm Hc).
    + assert (Hc : candidates X y <> []).
      { intros E. apply first_max_In in Hfm. rewrite E in Hfm. contradiction. }
      destruct (candidate_of_gain_zero X y Hlen Hne Hc) as [c [Hin [_ Hz]]].
      rewrite <- Hz. apply (first_max_greatest y _ bs c Hfm Hin).
Qed.

Lemma best_gain_never_decreases_witness :
  length X4 = length y4 /\ y4 <> []
  /\ exists r,
       _information_gain y4 (left_y c4_2) (right_y c4_2) = Ok r /\ (0 <= r)%R.
Proof.
  split; [reflexivity |]. split; [discriminate |].
  destruct (best_gain_never_decreases X4 y4 eq_refl ltac:(discriminate))
    as [_ [_ H]].
  destruct (H _ _ search_X4) as [r [_ [Hr [_ H0]]]].
  exists r. split; [exact Hr | exact H0].
Defined.

(** ** Empty partitions *)

Lemma majority_leaf_not_internal (y : labels) (f : nat) (t : Q) (l r : node) :
  majority_leaf y <> Ok (Internal f t l r).
Proof.
  unfold majority_leaf. destruct (argmax (bincount y)); simpl; discriminate.
Qed.

(** A call on no sample and no label raises [ValueError] (the [argmax] of
    an empty array) when it has fuel: it never returns a node. *)
Lemma build_tree_nil (fuel : nat) (md : option nat) (depth : nat) :
  _build_tree fuel md [] [] depth
  = match fuel with
    | 0 => OutOfFuel
    | S _ => Raise ValueError
    end.
Proof. destruct fuel; reflexivity. Qed.

(** A call that returns an internal node has recorded a split and both
    recursive calls have returned. *)
Lemma build_tree_internal (fuel : nat) (md : option nat) (X : matrix)
    (y : labels) (depth f : nat) (t : Q) (l r : node) :
  _build_tree fuel md X y depth = Ok (Internal f t l r) ->
  exists fuel' g bs XL XR,
    fuel = S fuel'
    /\ search X y = Ok (g, Some bs)
    /\ take_rows X (left_y bs) = Ok XL
    /\ _build_tree fuel' md XL (left_y bs) (S depth) = Ok l
    /\ take_rows X (right_y bs) = Ok XR
    /\ _build_tree fuel' md XR (right_y bs) (S depth) = Ok r
    /\ f = feature_idx bs /\ t = threshold bs.
Proof.
  destruct fuel as [| fuel']; [discriminate |].
  cbn [_build_tree]. intros H.
  assert (H' :
    (if (num_samples X =? 0) || (truthy md && depth_reached depth md)
     then majority_leaf y
     else
       st <- search X y ;;
       match snd st with
       | None => majority_leaf y
       | Some best_split =>
           XL <- take_rows X (left_y best_split) ;;
           left_tree <- _build_tree fuel' md XL (left_y best_split) (S depth) ;;
           XR <- take_rows X (right_y best_split) ;;
           right_tree <- _build_tree fuel' md XR (right_y best_split) (S depth) ;;
           Ok (Internal (feature_idx best_split) (threshold best_split)
                        left_tree right_tree)
       end) = Ok (Internal f t l r)).
  { destruct (unique_labels y) as [| c [| c' u]];
      [exact H | discriminate H | exact H]. }
  clear H.
  destruct ((num_samples X =? 0) || (truthy md && depth_reached depth md)).
  { exfalso. exact (majority_leaf_not_internal _ _ _ _ _ H'). }
  apply bind_Ok in H'. destruct H' as [[g [bs |]] [Hs H']]; cbn [snd] in H'.
  2: { exfalso. exact (majority_leaf_not_internal _ _ _ _ _ H'). }
  apply bind_Ok in H'. destruct H' as [XL [HXL H']].
  apply bind_Ok in H'. destruct H' as [lt [Hl H']].
  apply bind_Ok in H'. destruct H' as [XR [HXR H']].
  apply bind_Ok in H'. destruct H' as [rt [Hr H']].
  injection H' as <- <- <- <-.
  exists fuel', g, bs, XL, XR. repeat split; assumption.
Qed.

Lemma build_tree_partition_nonempty (fuel : nat) (md : option nat)
    (X XS : matrix) (ys : labels) (depth : nat) (n : node) :
  take_rows X ys = Ok XS -> _build_tree fuel md XS ys depth = Ok n ->
  ys <> [].
Proof.
  intros HX Hb Hnil. subst ys. simpl in HX. injection HX as <-.
  rewrite build_tree_nil in Hb. destruct fuel; discriminate.
Qed.

(** C10, as the code has it.  On a training set that is not empty, a split
    recorded as best has a left partition that is not empty, because its
    threshold is a value of the feature column.  The entropy of an empty
    partition is 0, the sum of no term, so that a candidate whose right
    partition is empty has the information gain 0.  An internal node that
    [_build_tree] returns comes from a recorded split whose two partitions
    are not empty. *)
Theorem best_split_partitions (X : matrix) (y : labels) :
  length X = length y -> y <> [] ->
  (forall g bs, search X y = Ok (g, Some bs) -> left_y bs <> [])
  /\ (forall c, In c (candidates X y) -> right_y c = [] ->
        _entropy (right_y c) = 0%R
        /\ _information_gain y (left_y c) (right_y c) = Ok 0%R)
  /\ (forall fuel md depth f t l r,
        _build_tree fuel md X y depth = Ok (Internal f t l r) ->
        exists g bs,
          search X y = Ok (g, Some bs)
          /\ f = feature_idx bs /\ t = threshold bs
          /\ left_y bs <> [] /\ right_y bs <> []).
Proof.
  intros Hlen Hne. split; [| split].
  - intros g bs Hs.
    destruct (search_some X y Hlen g bs Hne Hs) as [_ Hfm].
    apply (candidate_left_nonempty X y Hlen).
    apply (first_max_In y _ _ Hfm).
  - intros c Hc Hr. split; [rewrite Hr; apply entropy_nil |].
    rewrite information_gain_ok by exact Hne.
    destruct (candidate_right_empty X y Hlen c Hne Hc Hr) as [_ Hz].
    unfold gain in Hz. rewrite Hz. reflexivity.
  - intros fuel md depth f t l r Hb.
    destruct (build_tree_internal _ _ _ _ _ _ _ _ _ Hb)
      as [fuel' [g [bs [XL [XR [_ [Hs [HXL [Hl [HXR [Hr [Hf Ht]]]]]]]]]]]].
    exists g, bs. repeat split; try assumption.
    + exact (build_tree_partition_nonempty _ _ _ _ _ _ _ HXL Hl).
    + exact (build_tree_partition_nonempty _ _ _ _ _ _ _ HXR Hr).
Qed.

Lemma best_split_partitions_witness :
  length X4 = length y4 /\ y4 <> []
  /\ left_y c4_2 <> []
  /\ exists g bs,
       search X4 y4 = Ok (g, Some bs) /\ left_y bs <> [] /\ right_y bs <> [].
Proof.
  split; [reflexivity |]. split; [discriminate |].
  destruct (best_split_partitions X4 y4 eq_refl ltac:(discriminate))
    as [H1 [_ H3]].
  split; [exact (H1 _ _ search_X4) |].
  destruct (H3 2 (Some 1) 0 0 2%Q (Leaf 0) (Leaf 1)
              (build_tree_X4 0 (Some 1) eq_refl))
    as [g [bs [Hs [_ [_ [Hl Hr]]]]]].
  exists g, bs. repeat split; assumption.
Defined.

(** C10, refuted as stated: on two samples with the same feature value and
    different labels the search records a split whose right partition is
    empty. *)
Lemma best_split_right_empty :
  exists g bs, search X2 y2 = Ok (g, Some bs) /\ right_y bs = [].
Proof.
  exists (Fin (gain y2 c2)), c2. split; [exact search_X2 | reflexivity].
Qed.

(** ** Identical rows: the builder never returns *)

Section IdenticalRows.

Variables (r : row) (y : labels) (md : option nat).

Hypothesis Hfeature : r <> [].
Hypothesis Hne : y <> [].
Hypothesis Hmixed : forall c, unique_labels y <> [c].
Hypothesis Hrange : Forall (fun l => l < length y) y.
Hypothesis Hunset : truthy md = false.

Lemma identical_rows_length : length (identical_rows r (length y)) = length y.
Proof. unfold identical_rows. apply repeat_length. Qed.

Lemma identical_rows_column (f : nat) :
  column (identical_rows r (length y)) f = repeat (nth f r 0%Q) (length y).
Proof. unfold column, identical_rows. apply map_repeat. Qed.

(** Every candidate sends every sample to the left. *)
Lemma identical_rows_candidate (c : split) :
  In c (candidates (identical_rows r (length y)) y) ->
  left_y c = y /\ right_y c = [].
Proof.
  intros Hc.
  destruct (candidate_form (identical_rows r (length y)) y c Hc)
    as [f [t [-> [_ Ht]]]].
  apply unique_values_In in Ht. rewrite identical_rows_column in Ht.
  apply repeat_spec in Ht. subst t.
  unfold split_at. cbn [left_y right_y].
  apply select_all;
    [apply (mask_length (identical_rows r (length y)) y
              identical_rows_length) |].
  rewrite identical_rows_column, map_repeat.
  apply Forall_forall. intros b Hb. apply repeat_spec in Hb. subst b.
  apply Qle_bool_iff, Qle_refl.
Qed.

Lemma identical_rows_have_candidate :
  candidates (identical_rows r (length y)) y <> [].
Proof.
  assert (Hcol : column (identical_rows r (length y)) 0 <> []).
  { rewrite identical_rows_column. destruct y; [congruence | discriminate]. }
  destruct (unique_values_max _ Hcol) as [t [Ht _]].
  assert (Hin : In (0, t) (visits (identical_rows r (length y)))).
  { apply visits_In. split; [| exact Ht].
    unfold identical_rows. destruct y as [| l y']; [congruence |]. simpl.
    destruct r; [congruence | simpl; lia]. }
  intros E. unfold candidates in E. apply map_eq_nil in E.
  rewrite E in Hin. contradiction.
Qed.

Lemma identical_rows_search :
  exists g bs,
    search (identical_rows r (length y)) y = Ok (g, Some bs)
    /\ left_y bs = y /\ right_y bs = [].
Proof.
  destruct (search_result (identical_rows r (length y)) y
              identical_rows_length Hne)
    as [[[| g] [bs |]] [Hs Hm]]; try contradiction.
  - exfalso. exact (identical_rows_have_candidate Hm).
  - exists (Fin g), bs. split; [exact Hs |].
    destruct Hm as [_ Hfm]. apply identical_rows_candidate.
    apply (first_max_In y _ _ Hfm).
Qed.

(** Indexing the matrix by [y] gives the matrix again. *)
Lemma identical_rows_take (idx : list nat) :
  Forall (fun l => l < length y) idx ->
  take_rows (identical_rows r (length y)) idx = Ok (repeat r (length idx)).
Proof.
  induction 1 as [| l idx Hl _ IH]; [reflexivity |].
  cbn [take_rows].
  assert (Hnth : nth_error (identical_rows r (length y)) l = Some r).
  { unfold identical_rows. rewrite nth_error_repeat by exact Hl. reflexivity. }
  rewrite Hnth, IH. reflexivity.
Qed.

Lemma identical_rows_stops_early (depth : nat) :
  stops_early md (identical_rows r (length y)) depth = false.
Proof.
  unfold stops_early. rewrite Hunset. cbn [andb].
  unfold num_samples. rewrite identical_rows_length.
  destruct y; [congruence | reflexivity].
Qed.

(** When all the rows are the same row, with at least one feature, two or
    more labels that are valid row numbers, and [max_depth] unset or 0,
    no fuel is enough for [_build_tree]. *)
Lemma build_tree_identical_rows_diverges (fuel depth : nat) :
  _build_tree fuel md (identical_rows r (length y)) y depth = OutOfFuel.
Proof.
  revert depth. induction fuel as [| fuel IH]; intros depth; [reflexivity |].
  destruct identical_rows_search as [g [bs [Hs [Hl Hr]]]].
  rewrite (build_tree_split fuel md (identical_rows r (length y)) y depth g bs Hmixed
             (identical_rows_stops_early depth) Hs).
  rewrite Hl, (identical_rows_take y Hrange). cbn [bind].
  fold (identical_rows r (length y)). rewrite IH. reflexivity.
Qed.

End IdenticalRows.

(** * Further properties of the class *)

(** ** What a search that returns has seen *)

Lemma for_each_invariant {S A : Type} (P : S -> Prop)
    (body : S -> A -> result S) (l : list A) (s s' : S) :
  P s ->
  (forall s1 a s2, In a l -> P s1 -> body s1 a = Ok s2 -> P s2) ->
  for_each body l s = Ok s' -> P s'.
Proof.
  revert s; induction l as [| a l IH]; intros s Hs Hstep H; simpl in H.
  - injection H as <-. exact Hs.
  - apply bind_Ok in H. destruct H as [s1 [Ha H]].
    apply (IH s1); [| | exact H].
    + apply (Hstep s a s1); [left; reflexivity | exact Hs | exact Ha].
    + intros s2 a' s3 Ha'. apply Hstep. right; exact Ha'.
Qed.

Lemma for_each_no_fuel {S A : Type} (body : S -> A -> result S)
    (l : list A) (s : S) :
  (forall s1 a, body s1 a <> OutOfFuel) -> for_each body l s <> OutOfFuel.
Proof.
  intros Hb. revert s; induction l as [| a l IH]; intros s; simpl;
    [discriminate |].
  destruct (body s a) as [s1 | e |] eqn:E; simpl;
    [apply IH | discriminate | exfalso; exact (Hb s a E)].
Qed.

(** An iteration that does not raise has a mask as long as [y], a label
    vector that is not empty, and does the update of [step]. *)
Lemma try_threshold_Ok (X : matrix) (y : labels) (f : nat)
    (st st' : search_state) (t : Q) :
  try_threshold X y f st t = Ok st' ->
  length X = length y /\ y <> []
  /\ st' = step y st (split_at X y f t).
Proof.
  intros H.
  assert (Hlen : length X = length y).
  { unfold try_threshold, mask_index in H.
    rewrite !length_map in H. unfold column in H. rewrite length_map in H.
    match type of H with
    | context [if ?b then _ else _] => destruct b eqn:E
    end; [| discriminate H].
    apply Nat.eqb_eq in E. symmetry. exact E. }
  assert (Hne : y <> []).
  { intros ->. unfold try_threshold, mask_index in H.
    destruct X; [| discriminate Hlen]. simpl in H. discriminate H. }
  rewrite (try_threshold_step X y f st t Hlen Hne) in H.
  injection H as <-. repeat split; assumption.
Qed.

Lemma try_threshold_no_fuel (X : matrix) (y : labels) (f : nat)
    (st : search_state) (t : Q) :
  try_threshold X y f st t <> OutOfFuel.
Proof.
  unfold try_threshold, mask_index.
  destruct (length y =? _); [| discriminate]. cbn [bind].
  destruct (length y =? _); [| discriminate]. cbn [bind].
  unfold _information_gain.
  destruct (length y =? 0); [discriminate |]. cbn [bind].
  destruct (gt_bound _ _); discriminate.
Qed.

Lemma search_no_fuel (X : matrix) (y : labels) : search X y <> OutOfFuel.
Proof.
  rewrite search_visits. apply for_each_no_fuel.
  intros st v. apply try_threshold_no_fuel.
Qed.

(** A search that returns has either nothing to visit, or arrays of the
    same length that are not empty. *)
Lemma search_Ok_shape (X : matrix) (y : labels) (st : search_state) :
  search X y = Ok st ->
  (visits X = [] /\ st = search_init)
  \/ (visits X <> [] /\ length X = length y /\ y <> []).
Proof.
  rewrite search_visits. destruct (visits X) as [| v vs]; simpl.
  - intros H. injection H as <-. left. split; reflexivity.
  - intros H. apply bind_Ok in H. destruct H as [s1 [H1 _]].
    apply try_threshold_Ok in H1. destruct H1 as [Hlen [Hne _]].
    right. repeat split; [discriminate | exact Hlen | exact Hne].
Qed.

Lemma search_some_inv (X : matrix) (y : labels) (g : gain_bound)
    (bs : split) :
  search X y = Ok (g, Some bs) ->
  length X = length y /\ y <> []
  /\ g = Fin (gain y bs) /\ first_max y (candidates X y) bs.
Proof.
  intros H. destruct (search_Ok_shape X y _ H) as [[_ E] | [_ [Hlen Hne]]];
    [discriminate E |].
  destruct (search_some X y Hlen g bs Hne H) as [Hg Hfm].
  repeat split; assumption.
Qed.

Lemma visits_nil_iff (X : matrix) : visits X = [] <-> num_features X = 0.
Proof.
  split.
  - intros E. destruct X as [| r X']; [reflexivity |].
    destruct (num_features (r :: X')) as [| m] eqn:Hm; [reflexivity |].
    exfalso.
    assert (Hcol : column (r :: X') 0 <> []) by discriminate.
    destruct (unique_values_max _ Hcol) as [t [Ht _]].
    assert (Hin : In (0, t) (visits (r :: X'))).
    { apply visits_In. split; [rewrite Hm; lia | exact Ht]. }
    rewrite E in Hin. contradiction.
  - intros E. unfold visits. rewrite E. reflexivity.
Qed.

(** ** When the search records nothing *)

(** X1.  The search ends with [best_split = None] exactly when the matrix
    has no feature column, and then [best_info_gain] is still [-inf]: as
    soon as one candidate is examined without an exception, a split is
    recorded.  On a matrix without a column, [_build_tree] returns the
    majority leaf of a label vector that is not pure, at every depth and
    for every [max_depth]. *)
Theorem search_none_iff_no_feature (X : matrix) (y : labels) :
  (forall g, search X y = Ok (g, None) <-> num_features X = 0 /\ g = NegInf)
  /\ (forall fuel md depth,
        num_features X = 0 -> (forall c, unique_labels y <> [c]) ->
        _build_tree (S fuel) md X y depth = majority_leaf y).
Proof.
  split.
  - intros g. split.
    + intros H. destruct (search_Ok_shape X y _ H) as [[E Hst] | [Hv [Hlen Hne]]].
      * injection Hst as ->. split; [apply visits_nil_iff; exact E | reflexivity].
      * exfalso. destruct (search_result X y Hlen Hne) as [st [Hs Hm]].
        rewrite H in Hs. injection Hs as <-.
        destruct g; [| contradiction].
        apply Hv. unfold candidates in Hm. apply map_eq_nil in Hm. exact Hm.
    + intros [Hm ->]. rewrite search_visits.
      apply visits_nil_iff in Hm. rewrite Hm. reflexivity.
  - intros fuel md depth Hm Hu. cbn [_build_tree].
    assert (Hs : search X y = Ok (NegInf, None)).
    { rewrite search_visits. apply visits_nil_iff in Hm. rewrite Hm.
      reflexivity. }
    rewrite Hs. cbn [bind snd].
    destruct (unique_labels y) as [| c [| c' u]];
      [| exfalso; apply (Hu c); reflexivity |];
      destruct ((num_samples X =? 0)
                || (truthy md && depth_reached depth md)); reflexivity.
Qed.

Lemma search_none_iff_no_feature_witness :
  num_features [[]; []] = 0
  /\ _build_tree 1 None [[]; []] [1; 0] 0 = Ok (Leaf 0).
Proof.
  split; [reflexivity |].
  destruct (search_none_iff_no_feature [[]; []] [1; 0]) as [_ H].
  rewrite (H 0 None 0 eq_refl ltac:(discriminate)). reflexivity.
Defined.

(** ** The partitions of a recorded split *)

Lemma select_partition {A : Type} (a : list A) (mask : list bool) :
  length a = length mask ->
  Permutation (select a mask ++ select a (map negb mask)) a.
Proof.
  revert mask; induction a as [| x a IH]; intros [| b mask] Hlen;
    simpl in *; try discriminate; [constructor |].
  destruct b; simpl.
  - constructor. apply IH. lia.
  - apply Permutation_sym, Permutation_cons_app, Permutation_sym, IH. lia.
Qed.

Lemma select_filter {A : Type} (p : row -> bool) (X : matrix) (a : list A) :
  length X = length a ->
  select a (map p X)
  = map snd (filter (fun xy => p (fst xy)) (combine X a)).
Proof.
  revert a; induction X as [| x X IH]; intros [| v a] Hlen;
    simpl in *; try discriminate; [reflexivity |].
  destruct (p x); simpl; rewrite IH by lia; reflexivity.
Qed.

Lemma search_some_candidate (X : matrix) (y : labels) (g : gain_bound)
    (bs : split) :
  search X y = Ok (g, Some bs) ->
  length X = length y /\ y <> []
  /\ exists f t, bs = split_at X y f t
                 /\ f < num_features X
                 /\ In t (unique_values (column X f)).
Proof.
  intros H. destruct (search_some_inv X y g bs H) as [Hlen [Hne [_ Hfm]]].
  repeat split; try assumption.
  apply candidate_form. apply (first_max_In y _ _ Hfm).
Qed.

(** X2.  The two label arrays of a recorded split are a partition of [y]:
    together they hold the labels of [y], each as often as [y] does, and
    their lengths add up to the length of [y]. *)
Theorem recorded_split_is_partition (X : matrix) (y : labels)
    (g : gain_bound) (bs : split) :
  search X y = Ok (g, Some bs) ->
  Permutation (left_y bs ++ right_y bs) y
  /\ length (left_y bs) + length (right_y bs) = length y
  /\ (forall c, count_occ Nat.eq_dec (left_y bs) c
                + count_occ Nat.eq_dec (right_y bs) c
                = count_occ Nat.eq_dec y c).
Proof.
  intros H.
  destruct (search_some_candidate X y g bs H)
    as [Hlen [_ [f [t [-> _]]]]].
  assert (HP : Permutation (left_y (split_at X y f t)
                            ++ right_y (split_at X y f t)) y).
  { unfold split_at. cbn [left_y right_y].
    apply select_partition. apply (mask_length X y Hlen). }
  split; [exact HP |]. split.
  - rewrite <- length_app. apply Permutation_length. exact HP.
  - intros c. rewrite <- count_occ_app.
    apply (Permutation_count_occ Nat.eq_dec). exact HP.
Qed.

Lemma recorded_split_is_partition_witness :
  search X4 y4 = Ok (Fin (gain y4 c4_2), Some c4_2)
  /\ Permutation (left_y c4_2 ++ right_y c4_2) y4.
Proof.
  split; [exact search_X4 |].
  exact (proj1 (recorded_split_is_partition X4 y4 _ c4_2 search_X4)).
Defined.

(** X3.  A recorded split tests a feature index of the matrix against a
    threshold that is a value of that feature column; its left array holds,
    in the order of the samples, the labels of the samples whose feature
    is at most the threshold, and its right array the labels of the
    others. *)
Theorem recorded_split_provenance (X : matrix) (y : labels)
    (g : gain_bound) (bs : split) :
  search X y = Ok (g, Some bs) ->
  feature_idx bs < num_features X
  /\ In (threshold bs) (column X (feature_idx bs))
  /\ left_y bs
     = map snd (filter (fun xy => Qle_bool (nth (feature_idx bs) (fst xy) 0%Q)
                                           (threshold bs))
                       (combine X y))
  /\ right_y bs
     = map snd (filter (fun xy => negb (Qle_bool
                                          (nth (feature_idx bs) (fst xy) 0%Q)
                                          (threshold bs)))
                       (combine X y)).
Proof.
  intros H.
  destruct (search_some_candidate X y g bs H)
    as [Hlen [_ [f [t [-> [Hf Ht]]]]]].
  unfold split_at, column. cbn [feature_idx threshold left_y right_y].
  split; [exact Hf |]. split; [apply unique_values_In; exact Ht |].
  rewrite !map_map. split.
  - apply (select_filter (fun r => Qle_bool (nth f r 0%Q) t)). exact Hlen.
  - apply (select_filter (fun r => negb (Qle_bool (nth f r 0%Q) t))).
    exact Hlen.
Qed.

Lemma recorded_split_provenance_witness :
  search X4 y4 = Ok (Fin (gain y4 c4_2), Some c4_2)
  /\ feature_idx c4_2 < num_features X4
  /\ In (threshold c4_2) (column X4 (feature_idx c4_2)).
Proof.
  split; [exact search_X4 |].
  destruct (recorded_split_provenance X4 y4 _ c4_2 search_X4)
    as [H1 [H2 _]].
  split; assumption.
Defined.

(** ** The majority label *)

Lemma argmax_from_spec (l : list nat) :
  forall i best_i best_v,
    (argmax_from l i best_i best_v = best_i
     /\ forall j, nth j l 0 <= best_v)
    \/ (exists j,
          j < length l
          /\ argmax_from l i best_i best_v = i + j
          /\ best_v < nth j l 0
          /\ (forall j', nth j' l 0 <= nth j l 0)
          /\ (forall j', j' < j -> nth j' l 0 < nth j l 0)).
Proof.
  induction l as [| v l IH]; intros i best_i best_v.
  - left. split; [reflexivity |]. intros [| j]; simpl; lia.
  - cbn [argmax_from]. destruct (best_v <? v) eqn:E.
    + apply Nat.ltb_lt in E. right.
      destruct (IH (S i) i v) as [[Hk Hall] | [j [Hj [Hk [Hv [Hall Hbefore]]]]]].
      * exists 0. cbn [length nth]. rewrite Hk.
        repeat split; try lia.
        intros [| j']; [lia | apply Hall].
      * exists (S j). cbn [length nth]. rewrite Hk.
        repeat split; try lia.
        -- intros [| j']; [lia | apply Hall].
        -- intros [| j'] Hj'; [lia | apply Hbefore; lia].
    + apply Nat.ltb_ge in E.
      destruct (IH (S i) best_i best_v)
        as [[Hk Hall] | [j [Hj [Hk [Hv [Hall Hbefore]]]]]].
      * left. split; [exact Hk |].
        intros [| j']; [exact E | apply Hall].
      * right. exists (S j). cbn [length nth]. rewrite Hk.
        repeat split; try lia.
        -- intros [| j']; [lia | apply Hall].
        -- intros [| j'] Hj'; [lia | apply Hbefore; lia].
Qed.

(** [argmax] returns the first position of the greatest entry. *)
Lemma argmax_spec (l : list nat) (k : nat) :
  argmax l = Ok k ->
  k < length l
  /\ (forall j, nth j l 0 <= nth k l 0)
  /\ (forall j, j < k -> nth j l 0 < nth k l 0).
Proof.
  destruct l as [| v l]; [discriminate |]. cbn [argmax].
  intros H. injection H as <-.
  destruct (argmax_from_spec l 1 0 v)
    as [[Hk Hall] | [j [Hj [Hk [Hv [Hall Hbefore]]]]]]; rewrite Hk.
  - cbn [length nth]. repeat split; try lia.
    intros [| j]; [lia | apply Hall].
  - cbn [length]. change (1 + j) with (S j). cbn [nth].
    repeat split; try lia.
    + intros [| j']; [lia | apply Hall].
    + intros [| j'] Hj'; [lia | apply Hbefore; lia].
Qed.

(** Entry [k] of [np.bincount(y)] is the number of occurrences of [k];
    past the end of the array that number is 0. *)
Lemma bincount_nth (y : labels) (k : nat) :
  nth k (bincount y) 0 = count_occ Nat.eq_dec y k.
Proof.
  unfold bincount. destruct y as [| a y']; [destruct k; reflexivity |].
  set (y := a :: y').
  destruct (Nat.le_gt_cases k (list_max y)) as [Hk | Hk].
  - rewrite (nth_indep _ 0 (count_occ Nat.eq_dec y 0))
      by (rewrite length_map, length_seq; lia).
    rewrite map_nth, seq_nth by lia. reflexivity.
  - rewrite nth_overflow by (rewrite length_map, length_seq; lia).
    symmetry. apply count_occ_not_In. intros Hin.
    pose proof (In_le_list_max y k Hin). lia.
Qed.

Lemma majority_leaf_Ok (y : labels) (t : node) :
  majority_leaf y = Ok t ->
  exists c,
    t = Leaf c /\ In c y
    /\ (forall k, count_occ Nat.eq_dec y k <= count_occ Nat.eq_dec y c)
    /\ (forall k, k < c ->
          count_occ Nat.eq_dec y k < count_occ Nat.eq_dec y c).
Proof.
  unfold majority_leaf. intros H. apply bind_Ok in H.
  destruct H as [c [Hc Ht]]. injection Ht as <-.
  exists c. split; [reflexivity |].
  destruct (argmax_spec _ _ Hc) as [_ [Hmax Hfirst]].
  assert (Hall : forall k,
             count_occ Nat.eq_dec y k <= count_occ Nat.eq_dec y c).
  { intros k. rewrite <- !bincount_nth. apply Hmax. }
  split; [| split; [exact Hall |]].
  - destruct y as [| a y']; [discriminate Hc |].
    apply (count_occ_In Nat.eq_dec).
    assert (count_occ Nat.eq_dec (a :: y') a > 0)
      by (apply count_occ_In; left; reflexivity).
    specialize (Hall a). lia.
  - intros k Hk. rewrite <- !bincount_nth. apply Hfirst. exact Hk.
Qed.

(** X4.  The label of the leaf built from [np.bincount(y).argmax()] is a
    label of [y] that occurs at least as often as every other label, and
    strictly more often than every smaller label: the most frequent label,
    the lowest one among equals.  On an empty [y] the expression raises
    [ValueError]. *)
Theorem majority_leaf_spec (y : labels) :
  (y = [] -> majority_leaf y = Raise ValueError)
  /\ (y <> [] ->
      exists c,
        majority_leaf y = Ok (Leaf c) /\ In c y
        /\ (forall k, count_occ Nat.eq_dec y k <= count_occ Nat.eq_dec y c)
        /\ (forall k, k < c ->
              count_occ Nat.eq_dec y k < count_occ Nat.eq_dec y c)).
Proof.
  split; [intros ->; reflexivity |].
  intros Hne.
  destruct (majority_leaf y) as [t | e |] eqn:E.
  - destruct (majority_leaf_Ok y t E) as [c [-> H]]. exists c.
    split; [reflexivity | exact H].
  - exfalso. unfold majority_leaf, bincount in E.
    destruct y as [| a y']; [congruence |]. discriminate E.
  - exfalso. unfold majority_leaf in E.
    destruct (argmax (bincount y)) as [c | e |] eqn:Ea;
      try discriminate E.
    unfold argmax in Ea. destruct (bincount y); discriminate Ea.
Qed.

Lemma majority_leaf_spec_witness :
  [2; 0; 2; 0; 1] <> []
  /\ exists c, majority_leaf [2; 0; 2; 0; 1] = Ok (Leaf c) /\ In c [2; 0; 2; 0; 1].
Proof.
  split; [discriminate |].
  destruct (proj2 (majority_leaf_spec [2; 0; 2; 0; 1]) ltac:(discriminate))
    as [c [Hc [Hin _]]].
  exists c. split; assumption.
Defined.

(** ** The ways a call of [_build_tree] returns *)

Lemma build_tree_inv (fuel : nat) (md : option nat) (X : matrix)
    (y : labels) (depth : nat) (t : node) :
  _build_tree fuel md X y depth = Ok t ->
  exists fuel', fuel = S fuel' /\ returns_by fuel' md X y depth t.
Proof.
  destruct fuel as [| fuel']; [discriminate |].
  intros H. exists fuel'. split; [reflexivity |].
  cbn [_build_tree] in H. fold (stops_early md X depth) in H.
  destruct (unique_labels y) as [| c [| c' u]] eqn:Eu.
  2: { injection H as <-. apply (by_pure _ _ _ _ _ _ c); [exact Eu | reflexivity]. }
  all: assert (Hu : forall c0, unique_labels y <> [c0])
         by (intros c0; rewrite Eu; discriminate).
  all: destruct (stops_early md X depth) eqn:Hstop;
         [apply by_guard; assumption |].
  all: apply bind_Ok in H; destruct H as [[g [bs |]] [Hs H]]; cbn [snd] in H;
         [| apply (by_no_split _ _ _ _ _ _ g); assumption].
  all: apply bind_Ok in H; destruct H as [XL [HXL H]].
  all: apply bind_Ok in H; destruct H as [lt [Hl H]].
  all: apply bind_Ok in H; destruct H as [XR [HXR H]].
  all: apply bind_Ok in H; destruct H as [rt [Hr H]].
  all: injection H as <-.
  all: apply (by_split _ _ _ _ _ _ g bs XL XR lt rt); try assumption;
         reflexivity.
Qed.

(** ** Leaves and predictions are training labels *)

Lemma insert_label_In (x a : label) (l : labels) :
  In a (insert_label x l) -> a = x \/ In a l.
Proof.
  induction l as [| h t IH]; simpl.
  - intros [<- | []]. left; reflexivity.
  - destruct (x <? h); [| destruct (x =? h)]; simpl.
    + intros [<- | H]; [left; reflexivity | right; exact H].
    + intros H; right; exact H.
    + intros [<- | H]; [right; left; reflexivity |].
      destruct (IH H) as [-> | H']; [left; reflexivity | right; right; exact H'].
Qed.

Lemma unique_labels_In (y : labels) (c : label) :
  In c (unique_labels y) -> In c y.
Proof.
  induction y as [| a y IH]; simpl; [intros [] |].
  intros H. destruct (insert_label_In _ _ _ H) as [-> | H'];
    [left; reflexivity | right; apply IH; exact H'].
Qed.

Lemma select_In {A : Type} (a : list A) (mask : list bool) (x : A) :
  In x (select a mask) -> In x a.
Proof.
  revert mask; induction a as [| h a IH]; intros [| b mask]; simpl;
    try contradiction.
  destruct b; simpl.
  - intros [<- | H]; [left; reflexivity | right; apply (IH mask); exact H].
  - intros H. right. apply (IH mask). exact H.
Qed.

Lemma recorded_split_subsets (X : matrix) (y : labels) (g : gain_bound)
    (bs : split) :
  search X y = Ok (g, Some bs) ->
  (forall c, In c (left_y bs) -> In c y)
  /\ (forall c, In c (right_y bs) -> In c y).
Proof.
  intros H.
  destruct (search_some_candidate X y g bs H) as [_ [_ [f [t [-> _]]]]].
  unfold split_at. cbn [left_y right_y].
  split; intros c; apply select_In.
Qed.

Lemma build_tree_leaves (fuel : nat) :
  forall md X y depth t,
    _build_tree fuel md X y depth = Ok t ->
    Forall (fun c => In c y) (leaves t).
Proof.
  induction fuel as [| fuel IH]; intros md X y depth t H; [discriminate |].
  destruct (build_tree_inv _ _ _ _ _ _ H) as [fuel' [E R]].
  injection E as <-.
  destruct R as [c Hu -> | _ _ Hm | g _ _ _ Hm
                 | g bs XL XR l r _ _ Hs _ Hl _ Hr ->].
  - repeat constructor. apply unique_labels_In. rewrite Hu. left; reflexivity.
  - destruct (majority_leaf_Ok y t Hm) as [c [-> [Hin _]]].
    repeat constructor. exact Hin.
  - destruct (majority_leaf_Ok y t Hm) as [c [-> [Hin _]]].
    repeat constructor. exact Hin.
  - destruct (recorded_split_subsets X y g bs Hs) as [HL HR].
    cbn [leaves]. apply Forall_app. split.
    + eapply Forall_impl; [| exact (IH _ _ _ _ _ Hl)]. exact HL.
    + eapply Forall_impl; [| exact (IH _ _ _ _ _ Hr)]. exact HR.
Qed.

Lemma predict_node_leaf (x : row) (t : node) (c : label) :
  predict_node x t = Ok c -> In c (leaves t).
Proof.
  induction t as [c0 | f th l IHl r IHr]; cbn [predict_node leaves].
  - intros H. injection H as <-. left; reflexivity.
  - destruct (nth_error x f) as [v |]; [| discriminate].
    destruct (Qle_bool v th); intros H; apply in_or_app;
      [left; apply IHl | right; apply IHr]; exact H.
Qed.

Lemma comprehension_Forall2 {A B : Type} (f : A -> result B) (l : list A)
    (bs : list B) :
  comprehension f l = Ok bs <-> Forall2 (fun a b => f a = Ok b) l bs.
Proof.
  revert bs; induction l as [| a l IH]; intros bs; simpl.
  - split.
    + intros H. injection H as <-. constructor.
    + intros H. inversion H. reflexivity.
  - split.
    + intros H. apply bind_Ok in H. destruct H as [b [Hb H]].
      apply bind_Ok in H. destruct H as [bs' [Hbs H]].
      injection H as <-. constructor; [exact Hb | apply IH; exact Hbs].
    + intros H. inversion H as [| ? b ? bs' Hb Hbs]; subst.
      rewrite Hb. simpl. apply IH in Hbs. rewrite Hbs. reflexivity.
Qed.

(** X5.  Every leaf of a tree that [_build_tree] returns holds a label
    that occurs in the label vector of the call. *)
Theorem tree_leaves_are_training_labels (fuel : nat) (md : option nat)
    (X : matrix) (y : labels) (depth : nat) (t : node) :
  _build_tree fuel md X y depth = Ok t ->
  Forall (fun c => In c y) (leaves t).
Proof. apply build_tree_leaves. Qed.

Lemma tree_leaves_are_training_labels_witness :
  _build_tree 2 (Some 1) X4 y4 0 = Ok (Internal 0 2%Q (Leaf 0) (Leaf 1))
  /\ Forall (fun c => In c y4) [0; 1].
Proof.
  split; [exact (build_tree_X4 0 (Some 1) eq_refl) |].
  exact (tree_leaves_are_training_labels 2 (Some 1) X4 y4 0 _
           (build_tree_X4 0 (Some 1) eq_refl)).
Defined.

(** X6.  After a [fit] that returned, every label that [predict] returns,
    for any matrix, is a label of the training vector [y]. *)
Theorem predictions_are_training_labels (fuel : nat)
    (self self' : CustomDecisionTree) (X Xtest : matrix) (y : labels)
    (ps : list label) :
  fit fuel self X y = Ok self' ->
  predict self' Xtest = Ok ps ->
  Forall (fun p => In p y) ps.
Proof.
  unfold fit, predict. intros Hfit Hp.
  apply bind_Ok in Hfit. destruct Hfit as [t [Ht Hself]].
  injection Hself as <-. cbn [tree] in Hp.
  pose proof (build_tree_leaves _ _ _ _ _ _ Ht) as Hleaves.
  rewrite Forall_forall in Hleaves.
  apply comprehension_Forall2 in Hp.
  induction Hp as [| x p Xs ps' Hx _ IH]; constructor; [| exact IH].
  apply Hleaves. apply (predict_node_leaf x). exact Hx.
Qed.

Lemma predictions_are_training_labels_witness :
  exists self',
    fit 2 (init (Some 1)) X4 y4 = Ok self'
    /\ predict self' [[0]; [7]]%Q = Ok [0; 1]
    /\ Forall (fun p => In p y4) [0; 1].
Proof.
  exists {| max_depth := Some 1;
            tree := Some (Internal 0 2%Q (Leaf 0) (Leaf 1)) |}.
  assert (Hfit : fit 2 (init (Some 1)) X4 y4
                 = Ok {| max_depth := Some 1;
                         tree := Some (Internal 0 2%Q (Leaf 0) (Leaf 1)) |}).
  { unfold fit, init. cbn [max_depth].
    rewrite build_tree_X4 by reflexivity. reflexivity. }
  split; [exact Hfit |]. split; [reflexivity |].
  exact (predictions_are_training_labels 2 _ _ X4 [[0]; [7]]%Q y4 [0; 1]
           Hfit eq_refl).
Defined.

(** ** The depth limit *)

Lemma stops_early_false (d depth : nat) (X : matrix) :
  0 < d -> stops_early (Some d) X depth = false ->
  depth < d /\ X <> [].
Proof.
  unfold stops_early, num_samples. intros Hd H.
  apply orb_false_iff in H. destruct H as [HX Hdepth].
  split.
  - destruct d as [| d']; [lia |]. cbn [truthy depth_reached andb] in Hdepth.
    apply Nat.leb_gt in Hdepth. exact Hdepth.
  - intros ->. discriminate HX.
Qed.

Lemma build_tree_height (d : nat) (fuel : nat) :
  0 < d ->
  forall X y depth t,
    _build_tree fuel (Some d) X y depth = Ok t -> height t <= d - depth.
Proof.
  intros Hd. induction fuel as [| fuel IH]; intros X y depth t H;
    [discriminate |].
  destruct (build_tree_inv _ _ _ _ _ _ H) as [fuel' [E R]].
  injection E as <-.
  destruct R as [c _ -> | _ _ Hm | g _ _ _ Hm
                 | g bs XL XR l r _ Hstop _ _ Hl _ Hr ->].
  - cbn [height]. lia.
  - destruct (majority_leaf_Ok y t Hm) as [c [-> _]]. cbn [height]. lia.
  - destruct (majority_leaf_Ok y t Hm) as [c [-> _]]. cbn [height]. lia.
  - destruct (stops_early_false d depth X Hd Hstop) as [Hlt _].
    pose proof (IH _ _ _ _ Hl). pose proof (IH _ _ _ _ Hr).
    cbn [height]. lia.
Qed.

(** X7.  With a positive [max_depth], the tree that [fit] stores has no
    path with more than [max_depth] tests, and the subtree built by a call
    at depth [depth] has none with more than [max_depth - depth]. *)
Theorem max_depth_bounds_height (d fuel : nat) :
  0 < d ->
  (forall X y depth t,
     _build_tree fuel (Some d) X y depth = Ok t -> height t <= d - depth)
  /\ (forall self self' X y,
        max_depth self = Some d -> fit fuel self X y = Ok self' ->
        exists t, tree self' = Some t /\ height t <= d).
Proof.
  intros Hd. split; [apply build_tree_height; exact Hd |].
  intros self self' X y Hmd Hfit. unfold fit in Hfit. rewrite Hmd in Hfit.
  apply bind_Ok in Hfit. destruct Hfit as [t [Ht Hself]].
  injection Hself as <-. exists t. split; [reflexivity |].
  pose proof (build_tree_height d fuel Hd _ _ _ _ Ht). lia.
Qed.

Lemma max_depth_bounds_height_witness :
  0 < 1
  /\ _build_tree 2 (Some 1) X4 y4 0 = Ok (Internal 0 2%Q (Leaf 0) (Leaf 1))
  /\ height (Internal 0 2%Q (Leaf 0) (Leaf 1)) <= 1 - 0.
Proof.
  split; [lia |]. split; [exact (build_tree_X4 0 (Some 1) eq_refl) |].
  exact (proj1 (max_depth_bounds_height 1 2 ltac:(lia)) X4 y4 0 _
           (build_tree_X4 0 (Some 1) eq_refl)).
Defined.

(** ** Termination under a depth limit *)

Lemma take_rows_no_fuel (X : matrix) (idx : list nat) :
  take_rows X idx <> OutOfFuel.
Proof.
  induction idx as [| i idx IH]; simpl; [discriminate |].
  destruct (nth_error X i); [| discriminate].
  destruct (take_rows X idx); simpl; [discriminate | discriminate | congruence].
Qed.

Lemma majority_leaf_no_fuel (y : labels) : majority_leaf y <> OutOfFuel.
Proof.
  unfold majority_leaf, argmax. destruct (bincount y); discriminate.
Qed.

Lemma build_tree_terminates (d : nat) (fuel : nat) :
  0 < d ->
  forall X y depth,
    d - depth < fuel -> _build_tree fuel (Some d) X y depth <> OutOfFuel.
Proof.
  intros Hd. induction fuel as [| fuel IH]; intros X y depth Hfuel; [lia |].
  cbn [_build_tree]. fold (stops_early (Some d) X depth).
  assert (Hrest :
    (if stops_early (Some d) X depth
     then majority_leaf y
     else
       st <- search X y ;;
       match snd st with
       | None => majority_leaf y
       | Some best_split =>
           XL <- take_rows X (left_y best_split) ;;
           left_tree <- _build_tree fuel (Some d) XL (left_y best_split)
                          (S depth) ;;
           XR <- take_rows X (right_y best_split) ;;
           right_tree <- _build_tree fuel (Some d) XR (right_y best_split)
                           (S depth) ;;
           Ok (Internal (feature_idx best_split) (threshold best_split)
                        left_tree right_tree)
       end) <> OutOfFuel).
  { destruct (stops_early (Some d) X depth) eqn:Hstop;
      [apply majority_leaf_no_fuel |].
    destruct (stops_early_false d depth X Hd Hstop) as [Hlt _].
    destruct (search X y) as [[g [bs |]] | e |] eqn:Hs; cbn [bind snd].
    - destruct (take_rows X (left_y bs)) as [XL | e |] eqn:HXL; cbn [bind];
        [| discriminate | exfalso; exact (take_rows_no_fuel _ _ HXL)].
      destruct (_build_tree fuel (Some d) XL (left_y bs) (S depth))
        as [l | e |] eqn:Hl; cbn [bind];
        [| discriminate | exfalso; apply (IH XL (left_y bs) (S depth)); [lia | exact Hl]].
      destruct (take_rows X (right_y bs)) as [XR | e |] eqn:HXR; cbn [bind];
        [| discriminate | exfalso; exact (take_rows_no_fuel _ _ HXR)].
      destruct (_build_tree fuel (Some d) XR (right_y bs) (S depth))
        as [r | e |] eqn:Hr; cbn [bind];
        [discriminate | discriminate
         | exfalso; apply (IH XR (right_y bs) (S depth)); [lia | exact Hr]].
    - apply majority_leaf_no_fuel.
    - discriminate.
    - exfalso. exact (search_no_fuel X y Hs). }
  destruct (unique_labels y) as [| c [| c' u]];
    [exact Hrest | discriminate | exact Hrest].
Qed.

(** X8.  With a positive [max_depth] the builder always terminates: a
    call at depth [depth] returns a tree or raises an exception within
    [max_depth - depth + 1] nested calls, on every input; [fit] does so
    within [max_depth + 1]. *)
Theorem positive_max_depth_terminates (d fuel : nat) :
  0 < d ->
  (forall X y depth,
     d - depth < fuel -> _build_tree fuel (Some d) X y depth <> OutOfFuel)
  /\ (forall self X y,
        max_depth self = Some d -> d < fuel ->
        fit fuel self X y <> OutOfFuel).
Proof.
  intros Hd. split; [apply build_tree_terminates; exact Hd |].
  intros self X y Hmd Hfuel. unfold fit. rewrite Hmd.
  destruct (_build_tree fuel (Some d) X y 0) as [t | e |] eqn:E; cbn [bind];
    [discriminate | discriminate |].
  exfalso. apply (build_tree_terminates d fuel Hd X y 0); [lia | exact E].
Qed.

Lemma positive_max_depth_terminates_witness :
  0 < 3 /\ _build_tree 4 (Some 3) X10 y10 0 <> OutOfFuel.
Proof.
  split; [lia |].
  apply (proj1 (positive_max_depth_terminates 3 4 ltac:(lia))). lia.
Defined.

Lemma build_tree_eq (fuel : nat) (md : option nat) (X : matrix) (y : labels)
    (depth : nat) :
  _build_tree (S fuel) md X y depth
  = build_body (_build_tree fuel md) md X y depth.
Proof. reflexivity. Qed.

(** ** Feature indices of a fitted tree *)

Lemma take_rows_rectangular (m : nat) (X XS : matrix) (idx : list nat) :
  rectangular m X -> take_rows X idx = Ok XS -> rectangular m XS.
Proof.
  unfold rectangular. intros HX H. apply take_rows_spec in H.
  rewrite Forall_forall in HX.
  induction H as [| i r idx' XS' Hi _ IH]; constructor; [| exact IH].
  apply HX. apply (nth_error_In X i). exact Hi.
Qed.

Lemma rectangular_num_features (m : nat) (X : matrix) :
  rectangular m X -> X <> [] -> num_features X = m.
Proof.
  intros HX Hne. destruct X as [| r X']; [congruence |].
  inversion HX; subst. reflexivity.
Qed.

Lemma build_tree_features (m : nat) (fuel : nat) :
  forall md X y depth t,
    rectangular m X ->
    _build_tree fuel md X y depth = Ok t -> features_below m t.
Proof.
  induction fuel as [| fuel IH]; intros md X y depth t HX H; [discriminate |].
  destruct (build_tree_inv _ _ _ _ _ _ H) as [fuel' [E R]].
  injection E as <-.
  destruct R as [c _ -> | _ _ Hm | g _ _ _ Hm
                 | g bs XL XR l r _ _ Hs HXL Hl HXR Hr ->].
  - exact I.
  - destruct (majority_leaf_Ok y t Hm) as [c [-> _]]. exact I.
  - destruct (majority_leaf_Ok y t Hm) as [c [-> _]]. exact I.
  - destruct (search_some_candidate X y g bs Hs)
      as [Hlen [Hne [f [th [-> [Hf _]]]]]].
    cbn [features_below feature_idx split_at].
    assert (HXne : X <> []).
    { intros ->. destruct y; [congruence | discriminate Hlen]. }
    rewrite (rectangular_num_features m X HX HXne) in Hf.
    split; [exact Hf |]. split.
    + apply (IH _ _ _ _ _ (take_rows_rectangular m X XL _ HX HXL) Hl).
    + apply (IH _ _ _ _ _ (take_rows_rectangular m X XR _ HX HXR) Hr).
Qed.

Lemma predict_node_total (m : nat) (x : row) (t : node) :
  features_below m t -> m <= length x ->
  exists c, predict_node x t = Ok c.
Proof.
  intros Ht Hx. induction t as [c | f th l IHl r IHr]; cbn [predict_node].
  - exists c. reflexivity.
  - destruct Ht as [Hf [Hl Hr]].
    destruct (nth_error x f) as [v |] eqn:E.
    + destruct (Qle_bool v th); [apply IHl | apply IHr]; assumption.
    + apply nth_error_None in E. lia.
Qed.

(** X10.  A tree fitted on a matrix whose rows all have [m] entries only
    tests feature indices below [m]; hence [predict] raises no exception
    on a matrix whose rows have at least [m] entries, and returns one label
    for each of its rows. *)
Theorem fitted_tree_predicts_rectangular (m fuel : nat)
    (self self' : CustomDecisionTree) (X Xtest : matrix) (y : labels) :
  rectangular m X ->
  fit fuel self X y = Ok self' ->
  Forall (fun x => m <= length x) Xtest ->
  (exists t, tree self' = Some t /\ features_below m t)
  /\ exists ps, predict self' Xtest = Ok ps /\ length ps = length Xtest.
Proof.
  intros HX Hfit HXt. unfold fit in Hfit.
  apply bind_Ok in Hfit. destruct Hfit as [t [Ht Hself]].
  injection Hself as <-.
  pose proof (build_tree_features m fuel _ _ _ _ _ HX Ht) as Hfeat.
  split; [exists t; split; [reflexivity | exact Hfeat] |].
  unfold predict. cbn [tree _predict_single].
  induction HXt as [| x Xs Hx _ IH].
  - exists []. split; reflexivity.
  - destruct IH as [ps [Hps Hlen]].
    destruct (predict_node_total m x t Hfeat Hx) as [c Hc].
    exists (c :: ps). cbn [comprehension]. rewrite Hc. cbn [bind].
    rewrite Hps. cbn [bind length]. split; [reflexivity | lia].
Qed.

Lemma fitted_tree_predicts_rectangular_witness :
  rectangular 1 X4
  /\ exists self' ps,
       fit 2 (init (Some 1)) X4 y4 = Ok self'
       /\ predict self' [[9; 9]; [0]]%Q = Ok ps /\ length ps = 2.
Proof.
  assert (HX : rectangular 1 X4) by (repeat constructor).
  split; [exact HX |].
  assert (Hfit : fit 2 (init (Some 1)) X4 y4
                 = Ok {| max_depth := Some 1;
                         tree := Some (Internal 0 2%Q (Leaf 0) (Leaf 1)) |}).
  { unfold fit, init. cbn [max_depth].
    rewrite build_tree_X4 by reflexivity. reflexivity. }
  destruct (fitted_tree_predicts_rectangular 1 2 _ _ X4 [[9; 9]; [0]]%Q y4
              HX Hfit ltac:(repeat constructor; simpl; lia))
    as [_ [ps [Hps Hlen]]].
  eexists. exists ps. split; [exact Hfit |]. split; [exact Hps | exact Hlen].
Defined.

(** ** Exceptions of the builder *)

Lemma search_no_visits (X : matrix) (y : labels) :
  num_features X = 0 -> search X y = Ok (NegInf, None).
Proof.
  intros Hm. rewrite search_visits.
  apply visits_nil_iff in Hm. rewrite Hm. reflexivity.
Qed.

Lemma search_length_mismatch (X : matrix) (y : labels) :
  num_features X <> 0 -> length X <> length y ->
  search X y = Raise IndexError.
Proof.
  intros Hm Hlen. rewrite search_visits.
  destruct (visits X) as [| v vs] eqn:E.
  - exfalso. apply Hm. apply visits_nil_iff. exact E.
  - cbn [for_each]. unfold try_threshold, mask_index.
    rewrite !length_map. unfold column. rewrite length_map.
    assert (Hneq : (length y =? @length (list Q) X) = false)
      by (apply Nat.eqb_neq; intros E'; apply Hlen; symmetry; exact E').
    rewrite Hneq. reflexivity.
Qed.

Lemma build_tree_search_raises (fuel : nat) (md : option nat) (X : matrix)
    (y : labels) (depth : nat) (e : error) :
  (forall c, unique_labels y <> [c]) ->
  stops_early md X depth = false ->
  search X y = Raise e ->
  _build_tree (S fuel) md X y depth = Raise e.
Proof.
  intros Hu Hstop Hs. rewrite build_tree_eq. unfold build_body.
  rewrite Hstop, Hs. cbn [bind].
  destruct (unique_labels y) as [| c [| c' u]]; try reflexivity.
  exfalso. apply (Hu c). reflexivity.
Qed.

(** X11.  When [X] and [y] differ in length, [X] has a feature column,
    [y] is not pure and the call does not stop on its guard, the first
    iteration of the search indexes [y] with a mask of the wrong length:
    [_build_tree] raises [IndexError]. *)
Theorem length_mismatch_raises (fuel : nat) (md : option nat) (X : matrix)
    (y : labels) (depth : nat) :
  (forall c, unique_labels y <> [c]) ->
  stops_early md X depth = false ->
  num_features X <> 0 ->
  length X <> length y ->
  _build_tree (S fuel) md X y depth = Raise IndexError.
Proof.
  intros Hu Hstop Hm Hlen.
  apply build_tree_search_raises; [exact Hu | exact Hstop |].
  apply search_length_mismatch; assumption.
Qed.

Lemma length_mismatch_raises_witness :
  _build_tree 1 None X4 [0; 1; 0] 0 = Raise IndexError.
Proof.
  apply length_mismatch_raises.
  - discriminate.
  - reflexivity.
  - discriminate.
  - discriminate.
Defined.

(** X12.  On an empty label vector [_build_tree] never returns a tree and
    never recurses: it raises [ValueError] (the [argmax] of an empty
    array) when it stops on its guard or when the matrix has no feature
    column, and [IndexError] (a mask longer than [y]) otherwise. *)
Theorem empty_labels_raise (fuel : nat) (md : option nat) (X : matrix)
    (depth : nat) :
  _build_tree (S fuel) md X [] depth
  = if stops_early md X depth then Raise ValueError
    else if num_features X =? 0 then Raise ValueError
    else Raise IndexError.
Proof.
  destruct (stops_early md X depth) eqn:Hstop.
  - rewrite build_tree_eq. unfold build_body. rewrite Hstop. reflexivity.
  - destruct (num_features X =? 0) eqn:Hm.
    + apply Nat.eqb_eq in Hm. rewrite build_tree_eq. unfold build_body.
      rewrite Hstop, (search_no_visits X [] Hm). reflexivity.
    + apply Nat.eqb_neq in Hm.
      apply build_tree_search_raises; [discriminate | exact Hstop |].
      apply search_length_mismatch; [exact Hm |].
      unfold stops_early, num_samples in Hstop.
      apply orb_false_iff in Hstop. destruct Hstop as [HX _].
      apply Nat.eqb_neq in HX. exact HX.
Qed.

Lemma take_rows_out_of_range (X : matrix) (l : nat) (idx : list nat) :
  length X <= l -> take_rows X (l :: idx) = Raise IndexError.
Proof.
  intros Hl. cbn [take_rows].
  assert (E : nth_error X l = None) by (apply nth_error_None; exact Hl).
  rewrite E. reflexivity.
Qed.

(** X13.  The labels are used as row numbers.  When no label of [y] is a
    valid row number of [X] (every label is at least the number of rows),
    [X] has a feature column, [y] is not pure and the call does not stop
    on its guard, [_build_tree] raises [IndexError] at [X[left_y]]. *)
Theorem labels_out_of_range_raise (fuel : nat) (md : option nat)
    (X : matrix) (y : labels) (depth : nat) :
  length X = length y ->
  (forall c, unique_labels y <> [c]) ->
  stops_early md X depth = false ->
  num_features X <> 0 ->
  Forall (fun l => length X <= l) y ->
  _build_tree (S fuel) md X y depth = Raise IndexError.
Proof.
  intros Hlen Hu Hstop Hm Hrange.
  assert (Hne : y <> []).
  { intros ->. unfold stops_early, num_samples in Hstop.
    apply orb_false_iff in Hstop. destruct Hstop as [HX _].
    apply Nat.eqb_neq in HX. apply HX. exact Hlen. }
  destruct (search_result X y Hlen Hne) as [[[| g] [bs |]] [Hs Hres]];
    try contradiction.
  - exfalso. apply Hm. apply visits_nil_iff.
    unfold candidates in Hres. apply map_eq_nil in Hres. exact Hres.
  - destruct Hres as [_ Hfm].
    pose proof (first_max_In y _ _ Hfm) as Hin.
    pose proof (candidate_left_nonempty X y Hlen bs Hin) as Hleft.
    destruct (recorded_split_subsets X y _ bs Hs) as [Hsub _].
    rewrite (build_tree_split fuel md X y depth _ bs Hu Hstop Hs).
    destruct (left_y bs) as [| l ls]; [congruence |].
    rewrite take_rows_out_of_range; [reflexivity |].
    rewrite Forall_forall in Hrange. apply Hrange, Hsub. left; reflexivity.
Qed.

Lemma labels_out_of_range_raise_witness :
  _build_tree 1 None [[1]; [2]]%Q [5; 7] 0 = Raise IndexError.
Proof.
  apply labels_out_of_range_raise.
  - reflexivity.
  - discriminate.
  - reflexivity.
  - discriminate.
  - repeat constructor.
Defined.

(** ** [predict] row by row *)

Lemma comprehension_app {A B : Type} (f : A -> result B) (l1 l2 : list A) :
  comprehension f (l1 ++ l2)
  = (bs1 <- comprehension f l1 ;;
     bs2 <- comprehension f l2 ;; Ok (bs1 ++ bs2)).
Proof.
  induction l1 as [| a l1 IH]; simpl.
  - destruct (comprehension f l2); reflexivity.
  - destruct (f a) as [b | e |]; simpl; try reflexivity.
    rewrite IH. destruct (comprehension f l1) as [bs1 | e |]; simpl;
      try reflexivity.
    destruct (comprehension f l2); reflexivity.
Qed.

(** X14.  [predict] returns a list exactly when [_predict_single] returns
    for every row, and then the list holds the label of each row at the
    position of the row; the prediction of two matrices stacked is the
    concatenation of their predictions; and when a row raises after rows
    that all return, [predict] raises the exception of that row, whatever
    follows it. *)
Theorem predict_row_by_row (self : CustomDecisionTree) :
  (forall X ps,
     predict self X = Ok ps
     <-> Forall2 (fun x p => _predict_single x (tree self) = Ok p) X ps)
  /\ (forall X1 X2 ps1 ps2,
        predict self X1 = Ok ps1 -> predict self X2 = Ok ps2 ->
        predict self (X1 ++ X2) = Ok (ps1 ++ ps2))
  /\ (forall X1 x X2 ps1 e,
        predict self X1 = Ok ps1 ->
        _predict_single x (tree self) = Raise e ->
        predict self (X1 ++ x :: X2) = Raise e).
Proof.
  unfold predict. split; [| split].
  - intros X ps. apply comprehension_Forall2.
  - intros X1 X2 ps1 ps2 H1 H2.
    rewrite comprehension_app, H1, H2. reflexivity.
  - intros X1 x X2 ps1 e H1 Hx.
    rewrite comprehension_app, H1. cbn [bind comprehension].
    rewrite Hx. reflexivity.
Qed.

Lemma predict_row_by_row_witness :
  predict {| max_depth := None;
             tree := Some (Internal 1 2%Q (Leaf 0) (Leaf 1)) |}
          ([[0; 1]; [0; 3]] ++ [0] :: [[0; 5]])%Q
  = Raise IndexError.
Proof.
  apply (proj2 (proj2 (predict_row_by_row
           {| max_depth := None;
              tree := Some (Internal 1 2%Q (Leaf 0) (Leaf 1)) |}))
           [[0; 1]; [0; 3]]%Q [0]%Q [[0; 5]]%Q [0; 1] IndexError);
    reflexivity.
Defined.

(** ** Entropy depends on the label counts only *)

Lemma list_max_perm (l l' : list nat) :
  Permutation l l' -> list_max l = list_max l'.
Proof.
  induction 1 as [| a l l' _ IH | a b l | l l' l'' _ IH1 _ IH2]; simpl.
  - reflexivity.
  - rewrite IH. reflexivity.
  - lia.
  - congruence.
Qed.

Lemma bincount_perm (y y' : labels) :
  Permutation y y' -> bincount y = bincount y'.
Proof.
  intros HP. unfold bincount.
  destruct y as [| a y1]; destruct y' as [| a' y1'].
  - reflexivity.
  - apply Permutation_nil in HP. discriminate HP.
  - apply Permutation_sym, Permutation_nil in HP. discriminate HP.
  - rewrite (list_max_perm _ _ HP). apply map_ext.
    intros k. apply (Permutation_count_occ Nat.eq_dec). exact HP.
Qed.

Lemma entropy_perm (y y' : labels) :
  Permutation y y' -> _entropy y = _entropy y'.
Proof.
  intros HP. unfold _entropy, class_probs.
  rewrite (bincount_perm y y' HP), (Permutation_length HP). reflexivity.
Qed.

(** X15.  [_entropy] does not depend on the order of the labels, and
    [_information_gain] does not depend on the order of the labels inside
    the parent, the left and the right arrays. *)
Theorem entropy_permutation_invariant (parent parent' left left' right
    right' : labels) :
  Permutation parent parent' -> Permutation left left' ->
  Permutation right right' ->
  _entropy parent = _entropy parent'
  /\ _information_gain parent left right
     = _information_gain parent' left' right'.
Proof.
  intros Hp Hl Hr. split; [apply entropy_perm; exact Hp |].
  unfold _information_gain.
  rewrite (entropy_perm _ _ Hp), (entropy_perm _ _ Hl), (entropy_perm _ _ Hr).
  rewrite (Permutation_length Hp), (Permutation_length Hl),
    (Permutation_length Hr).
  reflexivity.
Qed.

Lemma entropy_permutation_invariant_witness :
  _entropy [0; 1; 1] = _entropy [1; 0; 1]
  /\ _information_gain [0; 1; 1] [0; 1] [1]
     = _information_gain [1; 0; 1] [1; 0] [1].
Proof.
  apply entropy_permutation_invariant.
  - apply perm_swap.
  - apply perm_swap.
  - apply Permutation_refl.
Defined.

(** ** A lower bound of the entropy *)

Section EntropyBound.

Local Open Scope R_scope.

Lemma list_sum_indicator (a start len : nat) :
  list_sum (map (fun k => if Nat.eq_dec a k then 1%nat else 0%nat)
                (seq start len))
  = if (start <=? a)%nat && (a <? start + len)%nat then 1%nat else 0%nat.
Proof.
  revert start; induction len as [| len IH]; intros start.
  - cbn [seq map list_sum]. 
    destruct (start <=? a)%nat eqn:E1; [| reflexivity].
    destruct (a <? start + 0)%nat eqn:E2; [| reflexivity].
    apply Nat.leb_le in E1. apply Nat.ltb_lt in E2. lia.
  - cbn [seq map].
    match goal with
    | |- list_sum (?h :: ?t) = _ =>
        change (list_sum (h :: t)) with (h + list_sum t)%nat
    end.
    rewrite IH.
    destruct (Nat.eq_dec a start) as [-> | Hne].
    + replace (S start <=? start)%nat with false
        by (symmetry; apply Nat.leb_gt; lia).
      rewrite Nat.leb_refl.
      replace (start <? start + S len)%nat with true
        by (symmetry; apply Nat.ltb_lt; lia).
      reflexivity.
    + destruct (start <=? a)%nat eqn:E1;
        destruct (S start <=? a)%nat eqn:E2;
        destruct (a <? S start + len)%nat eqn:E3;
        destruct (a <? start + S len)%nat eqn:E4;
        try reflexivity;
        repeat match goal with
               | H : (_ <=? _)%nat = true |- _ => apply Nat.leb_le in H
               | H : (_ <=? _)%nat = false |- _ => apply Nat.leb_gt in H
               | H : (_ <? _)%nat = true |- _ => apply Nat.ltb_lt in H
               | H : (_ <? _)%nat = false |- _ => apply Nat.ltb_ge in H
               end; lia.
Qed.

Lemma list_sum_map_add {A : Type} (f g : A -> nat) (l : list A) :
  list_sum (map (fun k => (f k + g k)%nat) l)
  = (list_sum (map f l) + list_sum (map g l))%nat.
Proof. induction l as [| a l IH]; simpl; [reflexivity | rewrite IH; lia]. Qed.

(** The counts of the labels below [n] add up to the length of [y] when
    every label is below [n]. *)
Lemma count_sum (y : labels) (n : nat) :
  Forall (fun a => (a < n)%nat) y ->
  list_sum (map (count_occ Nat.eq_dec y) (seq 0 n)) = length y.
Proof.
  induction 1 as [| a y Ha _ IH].
  - cbn [count_occ length]. induction (seq 0 n); simpl; [reflexivity | assumption].
  - transitivity
      (list_sum (map (fun k => ((if Nat.eq_dec a k then 1 else 0)
                                + count_occ Nat.eq_dec y k)%nat) (seq 0 n))).
    + f_equal. apply map_ext. intros k. cbn [count_occ].
      destruct (Nat.eq_dec a k); reflexivity.
    + rewrite list_sum_map_add, IH, list_sum_indicator.
      replace (0 <=? a)%nat with true by (symmetry; apply Nat.leb_le; lia).
      replace (a <? 0 + n)%nat with true by (symmetry; apply Nat.ltb_lt; lia).
      reflexivity.
Qed.

Lemma bincount_sum (y : labels) : list_sum (bincount y) = length y.
Proof.
  unfold bincount. destruct y as [| a y']; [reflexivity |].
  apply count_sum. apply Forall_forall. intros k Hk.
  pose proof (In_le_list_max _ _ Hk). lia.
Qed.

Lemma Rsum_scaled (n L : R) (l : list nat) :
  Rsum (map (fun c => INR c / n * L) l) = INR (list_sum l) / n * L.
Proof.
  induction l as [| c l IH]; cbn [map Rsum fold_right].
  - simpl. lra.
  - fold (Rsum (map (fun c0 => INR c0 / n * L) l)). rewrite IH.
    change (list_sum (c :: l)) with (c + list_sum l)%nat.
    rewrite plus_INR. lra.
Qed.

Lemma Rsum_le (f g : nat -> R) (l : list nat) :
  (forall c, In c l -> f c <= g c) ->
  Rsum (map f l) <= Rsum (map g l).
Proof.
  induction l as [| c l IH]; intros H; cbn [map Rsum fold_right]; [lra |].
  fold (Rsum (map f l)) (Rsum (map g l)).
  pose proof (H c (or_introl eq_refl)).
  assert (Rsum (map f l) <= Rsum (map g l))
    by (apply IH; intros c' Hc'; apply H; right; exact Hc').
  lra.
Qed.

Lemma entropy_ge (y : labels) : - log2 (1 + eps) <= _entropy y.
Proof.
  pose proof log2_1p_eps as [HL _].
  destruct y as [| a y'] eqn:Ey; [rewrite entropy_nil; lra |].
  rewrite <- Ey. assert (Hne : y <> []) by (rewrite Ey; discriminate).
  clear Ey a y'.
  assert (Hn : 0 < INR (length y)).
  { apply lt_0_INR. destruct y; [congruence | simpl; lia]. }
  rewrite entropy_unfold.
  assert (H : Rsum (map (fun c => INR c / INR (length y)
                                  * log2 (INR c / INR (length y) + eps))
                        (bincount y))
              <= Rsum (map (fun c => INR c / INR (length y) * log2 (1 + eps))
                           (bincount y))).
  { apply Rsum_le. intros c Hc. apply bincount_entries in Hc.
    destruct Hc as [k ->].
    assert (Hc0 : 0 <= INR (count_occ Nat.eq_dec y k)) by apply pos_INR.
    assert (Hc1 : INR (count_occ Nat.eq_dec y k) <= INR (length y))
      by (apply le_INR, count_occ_bound).
    assert (Hp0 : 0 <= INR (count_occ Nat.eq_dec y k) / INR (length y)).
    { apply Rmult_le_pos; [exact Hc0 |]. left. apply Rinv_0_lt_compat, Hn. }
    assert (Hp1 : INR (count_occ Nat.eq_dec y k) / INR (length y) <= 1).
    { apply (Rmult_le_reg_r (INR (length y))); [exact Hn |].
      unfold Rdiv. rewrite Rmult_assoc, Rinv_l; lra. }
    apply Rmult_le_compat_l; [exact Hp0 |].
    pose proof eps_pos. apply log2_le; lra. }
  rewrite Rsum_scaled, bincount_sum in H.
  replace (INR (length y) / INR (length y)) with 1 in H by (field; lra).
  lra.
Qed.

End EntropyBound.

(** X16.  The entropy the code computes is never below the value it has
    on a pure vector, [- log2 (1 + 1e-9)]: it is greater than [-2e-9] for
    every label vector, the empty one included. *)
Theorem entropy_lower_bound (y : labels) :
  (- log2 (1 + eps) <= _entropy y)%R
  /\ (- (2 / 1000000000) < _entropy y)%R.
Proof.
  pose proof (entropy_ge y) as H. split; [exact H |].
  pose proof log2_1p_eps as [_ HL]. unfold eps in HL at 2. lra.
Qed.

(** * The rule of selection on the computed gains *)

Section ComputedGainFacts.

Variable gain_fl : labels -> labels -> labels -> R.

Local Open Scope R_scope.

Lemma information_gain_fl_ok (y l r : labels) :
  y <> [] -> information_gain_fl gain_fl y l r = Ok (gain_fl y l r).
Proof.
  intros Hne. unfold information_gain_fl.
  destruct y as [| a y']; [congruence | reflexivity].
Qed.

Lemma try_threshold_fl_step (X : matrix) (y : labels) (f : nat)
    (st : search_state) (t : Q) :
  length X = length y -> y <> [] ->
  try_threshold_fl gain_fl X y f st t
  = Ok (step_fl gain_fl y st (split_at X y f t)).
Proof.
  intros Hlen Hne. unfold try_threshold_fl, mask_index.
  rewrite !length_map. unfold column. rewrite length_map.
  assert (Hlen' : @length (list Q) X = length y) by exact Hlen.
  rewrite Hlen', Nat.eqb_refl. cbn [bind].
  rewrite information_gain_fl_ok by assumption. cbn [bind].
  unfold step_fl, computed_gain, split_at. cbn [left_y right_y].
  destruct (gt_bound _ (fst st)); reflexivity.
Qed.

Lemma search_fl_fold (X : matrix) (y : labels) :
  length X = length y -> y <> [] ->
  search_fl gain_fl X y
  = Ok (fold_left (step_fl gain_fl y) (candidates X y) search_init).
Proof.
  intros Hlen Hne. unfold search_fl, try_feature_fl.
  rewrite (for_each_nested (try_threshold_fl gain_fl X y)
             (fun f => unique_values (column X f))).
  fold (visits X). unfold candidates. rewrite fold_left_through_map.
  apply for_each_pure. intros st v _.
  apply try_threshold_fl_step; assumption.
Qed.

Lemma step_fl_take (y : labels) (g : R) (o : option split) (c : split) :
  g < computed_gain gain_fl y c ->
  step_fl gain_fl y (Fin g, o) c = (Fin (computed_gain gain_fl y c), Some c).
Proof.
  intros H. unfold step_fl. cbn [fst].
  destruct (gt_bound (computed_gain gain_fl y c) (Fin g)) eqn:E;
    [reflexivity |].
  assert (E' : gt_bound (computed_gain gain_fl y c) (Fin g) = true)
    by (apply gt_bound_Fin; lra).
  congruence.
Qed.

Lemma step_fl_keep (y : labels) (g : R) (o : option split) (c : split) :
  computed_gain gain_fl y c <= g ->
  step_fl gain_fl y (Fin g, o) c = (Fin g, o).
Proof.
  intros H. unfold step_fl. cbn [fst].
  destruct (gt_bound (computed_gain gain_fl y c) (Fin g)) eqn:E;
    [| reflexivity].
  apply gt_bound_Fin in E. lra.
Qed.

(** What the loop holds after the candidates of [l]. *)
Lemma fold_step_fl_first_max (y : labels) (l : list split) :
  match fold_left (step_fl gain_fl y) l search_init with
  | (NegInf, None) => l = []
  | (Fin g, Some b) =>
      g = computed_gain gain_fl y b /\ first_max_fl gain_fl y l b
  | _ => False
  end.
Proof.
  induction l as [| c l IH] using rev_ind; [reflexivity |].
  rewrite fold_left_app. cbn [fold_left].
  destruct (fold_left (step_fl gain_fl y) l search_init) as [[| g] [b |]];
    try contradiction.
  - subst l. cbn. split; [reflexivity |].
    exists [], []. split; [reflexivity |]. split; intros c' [].
  - destruct IH as [-> [l1 [l2 [-> [H1 H2]]]]].
    destruct (Rle_or_lt (computed_gain gain_fl y c)
                        (computed_gain gain_fl y b)) as [H | H].
    + rewrite step_fl_keep by assumption. split; [reflexivity |].
      exists l1, (l2 ++ [c]). split; [| split].
      * rewrite <- app_assoc. reflexivity.
      * exact H1.
      * intros c' Hc'. apply in_app_or in Hc'.
        destruct Hc' as [Hc' | [<- | []]]; [apply H2; exact Hc' | exact H].
    + rewrite step_fl_take by assumption. split; [reflexivity |].
      exists (l1 ++ b :: l2), []. split; [reflexivity |]. split.
      * intros c' Hc'. apply in_app_or in Hc'.
        destruct Hc' as [Hc' | [<- | Hc']].
        -- specialize (H1 _ Hc'). lra.
        -- exact H.
        -- specialize (H2 _ Hc'). lra.
      * intros c' [].
Qed.

End ComputedGainFacts.

(** The search of the idealised model is the search on the exact gains. *)
Lemma search_fl_exact (X : matrix) (y : labels) :
  search_fl exact_gain X y = search X y.
Proof. reflexivity. Qed.

(** C5.  Let [gain_fl] give the double that [_information_gain] computes.
    On a training set that is not empty, the search visits the pairs
    (feature, threshold) with the feature indices ascending and, within a
    feature, the distinct thresholds ascending.  It returns; when there is
    a candidate, the split it records is a candidate whose computed gain
    is the greatest of all, every candidate visited before it has a
    strictly smaller computed gain, and every candidate visited after it
    has a computed gain at most equal: among the candidates of greatest
    computed gain the recorded one has the lowest feature index and, for
    that feature, the lowest threshold.  The search of the idealised
    model is the case of the exact gains. *)
Theorem search_keeps_first_greatest_gain
    (gain_fl : labels -> labels -> labels -> R) (X : matrix) (y : labels) :
  length X = length y -> y <> [] ->
  StronglySorted visited_before (visits X)
  /\ (forall c, information_gain_fl gain_fl y (left_y c) (right_y c)
                = Ok (computed_gain gain_fl y c))
  /\ search_fl gain_fl X y
     = Ok (fold_left (step_fl gain_fl y) (candidates X y) search_init)
  /\ (exists st,
        search_fl gain_fl X y = Ok st
        /\ match st with
           | (NegInf, None) => candidates X y = []
           | (Fin g, Some bs) =>
               g = computed_gain gain_fl y bs
               /\ (exists l1 l2,
                     candidates X y = l1 ++ bs :: l2
                     /\ (forall c, In c l1 ->
                           (computed_gain gain_fl y c < g)%R
                           /\ visited_before (key c) (key bs))
                     /\ (forall c, In c l2 ->
                           (computed_gain gain_fl y c <= g)%R
                           /\ visited_before (key bs) (key c)))
               /\ (forall c, In c (candidates X y) ->
                     (computed_gain gain_fl y c <= g)%R)
               /\ (forall c, In c (candidates X y) ->
                     computed_gain gain_fl y c = g ->
                     c = bs \/ visited_before (key bs) (key c))
           | _ => False
           end)
  /\ search_fl exact_gain X y = search X y.
Proof.
  intros Hlen Hne. split; [apply visits_sorted |].
  split; [intros c; apply information_gain_fl_ok; exact Hne |].
  split; [apply search_fl_fold; assumption |].
  split; [| apply search_fl_exact].
  rewrite (search_fl_fold gain_fl X y Hlen Hne).
  pose proof (fold_step_fl_first_max gain_fl y (candidates X y)) as Hm.
  destruct (fold_left (step_fl gain_fl y) (candidates X y) search_init)
    as [[| g] [bs |]]; try contradiction.
  - exists (NegInf, None). split; [reflexivity | exact Hm].
  - exists (Fin g, Some bs). split; [reflexivity |].
    destruct Hm as [-> [l1 [l2 [E [H1 H2]]]]]. split; [reflexivity |].
    pose proof (candidates_sorted X y) as Hsorted. rewrite E in Hsorted.
    apply sorted_split in Hsorted. destruct Hsorted as [Hb Ha].
    split; [| split].
    + exists l1, l2. split; [exact E |]. split.
      * intros c Hc. split; [apply H1; exact Hc | apply Hb; exact Hc].
      * intros c Hc. split; [apply H2; exact Hc | apply Ha; exact Hc].
    + intros c Hc. rewrite E in Hc. apply in_app_or in Hc.
      destruct Hc as [Hc | [<- | Hc]].
      * specialize (H1 _ Hc). lra.
      * lra.
      * apply H2. exact Hc.
    + intros c Hc Hg. rewrite E in Hc. apply in_app_or in Hc.
      destruct Hc as [Hc | [<- | Hc]].
      * specialize (H1 _ Hc). lra.
      * left; reflexivity.
      * right. apply Ha. exact Hc.
Qed.

Ltac entropy_counts counts :=
  rewrite entropy_unfold;
  match goal with
  | |- context [bincount ?y] => change (bincount y) with counts
  end;
  cbn [map length]; unfold Rsum; cbn [fold_right];
  rewrite ?INR_IZR_INZ; cbn [Z.of_nat Pos.of_succ_nat Pos.succ].

Lemma entropy_01 : _entropy [0; 1] = (1 - log2 (1 + 2 * eps))%R.
Proof.
  entropy_counts [1; 1].
  replace (1 / 2 + eps)%R with ((1 + 2 * eps) / 2)%R by lra.
  pose proof eps_pos. rewrite log2_half by lra. lra.
Qed.

(** The gain of a split of [[0, 1]] into [[0]] and [[1]]. *)
Lemma exact_gain_01 :
  exact_gain [0; 1] [0] [1]
  = (1 - log2 (1 + 2 * eps) + log2 (1 + eps))%R.
Proof.
  unfold exact_gain. rewrite entropy_01, entropy_0, entropy_1.
  cbn [length]. rewrite !INR_IZR_INZ.
  cbn [Z.of_nat Pos.of_succ_nat Pos.succ]. lra.
Qed.

Lemma exact_gain_01_pos : (0 < exact_gain [0; 1]%nat [0]%nat [1]%nat)%R.
Proof.
  rewrite exact_gain_01.
  pose proof log2_1p_eps as H1. pose proof log2_1p_2eps as H2.
  unfold eps in H1 at 3. unfold eps in H2 at 4. lra.
Qed.

Lemma candidates_twin :
  candidates Xtwin ytwin
  = [ {| feature_idx := 0; threshold := 1%Q; left_y := [0]; right_y := [1] |};
      {| feature_idx := 0; threshold := 2%Q; left_y := [0; 1]; right_y := [] |};
      {| feature_idx := 1; threshold := 1%Q; left_y := [0]; right_y := [1] |};
      {| feature_idx := 1; threshold := 2%Q; left_y := [0; 1]; right_y := [] |} ].
Proof. reflexivity. Qed.

Lemma search_keeps_first_greatest_gain_witness :
  length Xtwin = length ytwin /\ ytwin <> []
  /\ exists g,
       search_fl exact_gain Xtwin ytwin
       = Ok (Fin g,
             Some {| feature_idx := 0; threshold := 1%Q;
                     left_y := [0]; right_y := [1] |})
       /\ computed_gain exact_gain ytwin
            {| feature_idx := 1; threshold := 1%Q;
               left_y := [0]; right_y := [1] |} = g.
Proof.
  split; [reflexivity |]. split; [discriminate |].
  destruct (search_keeps_first_greatest_gain exact_gain Xtwin ytwin eq_refl
              ltac:(discriminate)) as [_ [_ [_ [[st [Hs Hm]] _]]]].
  pose proof exact_gain_01_pos as Hpos.
  assert (Hzero : forall f t,
             computed_gain exact_gain ytwin
               {| feature_idx := f; threshold := t;
                  left_y := [0; 1]; right_y := [] |} = 0%R).
  { intros f t. apply (gain_all_left ytwin f t). discriminate. }
  destruct st as [[| g] [bs |]]; try contradiction.
  - rewrite candidates_twin in Hm. discriminate Hm.
  - destruct Hm as [Hg [[l1 [l2 [E _]]] [Hmax Htie]]].
    rewrite candidates_twin in E, Hmax, Htie.
    assert (Hin : In bs
              [ {| feature_idx := 0; threshold := 1%Q;
                   left_y := [0]; right_y := [1] |};
                {| feature_idx := 0; threshold := 2%Q;
                   left_y := [0; 1]; right_y := [] |};
                {| feature_idx := 1; threshold := 1%Q;
                   left_y := [0]; right_y := [1] |};
                {| feature_idx := 1; threshold := 2%Q;
                   left_y := [0; 1]; right_y := [] |} ]).
    { rewrite E. apply in_or_app. right; left; reflexivity. }
    pose proof (Hmax _ (or_introl eq_refl)) as H1.
    change (exact_gain [0; 1]%nat [0]%nat [1]%nat <= g)%R in H1.
    destruct Hin as [<- | [<- | [<- | [<- | []]]]].
    + exists g. split; [exact Hs |]. symmetry. exact Hg.
    + exfalso. rewrite Hzero in Hg. lra.
    + exfalso.
      destruct (Htie _ (or_introl eq_refl) (eq_sym Hg)) as [Heq | Hbefore].
      * discriminate Heq.
      * unfold visited_before, key in Hbefore. cbn in Hbefore.
        destruct Hbefore as [Hlt | [Heq _]]; [lia | discriminate Heq].
    + exfalso. rewrite Hzero in Hg. lra.
Defined.

(** * The arrays the recursive calls receive *)

Section SecondLevel.

Local Open Scope R_scope.

(** An upper bound of a logarithm from a power of its argument. *)
Lemma log2_pow_lt (x : R) (n k : nat) :
  0 < x -> x ^ n < / 2 ^ k -> INR n * log2 x < - INR k.
Proof.
  intros Hx Hpow.
  assert (Hln : ln (x ^ n) < ln (/ 2 ^ k))
    by (apply ln_increasing; [apply pow_lt; exact Hx | exact Hpow]).
  rewrite ln_pow in Hln by exact Hx.
  rewrite ln_Rinv in Hln by (apply pow_lt; lra).
  rewrite ln_pow in Hln by lra.
  pose proof ln2_pos as Hp. unfold log2.
  apply (Rmult_lt_reg_r (ln 2)); [exact Hp |].
  replace (INR n * (ln x / ln 2) * ln 2) with (INR n * ln x)
    by (field; lra).
  lra.
Qed.

Lemma log2_third_tight : log2 (1 / 3 + eps) < - (3 / 2).
Proof.
  pose proof (log2_pow_lt (1 / 3 + eps) 2 3) as H.
  cbn [INR] in H. unfold eps in *. 
  assert (H' : (1 + 1) * log2 (1 / 3 + 1 / 1000000000) < - (1 + 1 + 1))
    by (apply H; [lra | simpl; lra]).
  lra.
Qed.

Lemma log2_two_thirds_tight : log2 (2 / 3 + eps) < - (1 / 2).
Proof.
  pose proof (log2_pow_lt (2 / 3 + eps) 2 1) as H.
  cbn [INR] in H. unfold eps in *.
  assert (H' : (1 + 1) * log2 (2 / 3 + 1 / 1000000000) < - 1)
    by (apply H; [lra | simpl; lra]).
  lra.
Qed.

Lemma log2_quarter_tight : log2 (1 / 4 + eps) < - (3 / 2).
Proof.
  pose proof (log2_pow_lt (1 / 4 + eps) 2 3) as H.
  cbn [INR] in H. unfold eps in *.
  assert (H' : (1 + 1) * log2 (1 / 4 + 1 / 1000000000) < - (1 + 1 + 1))
    by (apply H; [lra | simpl; lra]).
  lra.
Qed.

Lemma log2_three_quarters_tight : log2 (3 / 4 + eps) < - (1 / 4).
Proof.
  pose proof (log2_pow_lt (3 / 4 + eps) 4 1) as H.
  cbn [INR] in H. unfold eps in *.
  assert (H' : (1 + 1 + 1 + 1) * log2 (3 / 4 + 1 / 1000000000) < - 1)
    by (apply H; [lra | simpl; lra]).
  lra.
Qed.

Lemma entropy_010 : 5 / 6 < _entropy [0; 1; 0]%nat.
Proof.
  entropy_counts [2; 1]%nat.
  pose proof log2_third_tight. pose proof log2_two_thirds_tight. lra.
Qed.

Lemma entropy_001_tight : 5 / 6 < _entropy [0; 0; 1]%nat.
Proof.
  entropy_counts [2; 1]%nat.
  pose proof log2_third_tight. pose proof log2_two_thirds_tight. lra.
Qed.

Lemma entropy_y4b : 9 / 16 < _entropy y4b.
Proof.
  unfold y4b. entropy_counts [3; 1]%nat.
  pose proof log2_quarter_tight. pose proof log2_three_quarters_tight. lra.
Qed.

Lemma entropy_10 : _entropy [1; 0]%nat = 1 - log2 (1 + 2 * eps).
Proof.
  rewrite <- entropy_01. apply entropy_perm. apply perm_swap.
Qed.

Lemma candidates_X4b : candidates X4 y4b = [cb_1; cb_2; cb_3; cb_4].
Proof. reflexivity. Qed.

Lemma candidates_X21 : candidates X21 y21 = [cc_1; cc_2].
Proof. reflexivity. Qed.

Ltac gain_lengths :=
  cbn [length]; rewrite !INR_IZR_INZ;
  cbn [Z.of_nat Pos.of_succ_nat Pos.succ].

Lemma gain_cb_2 :
  gain y4b cb_2
  = _entropy y4b + log2 (1 + eps) / 2 - (1 - log2 (1 + 2 * eps)) / 2.
Proof.
  unfold gain, cb_2. cbn [left_y right_y].
  rewrite entropy_00, entropy_10.
  generalize (_entropy y4b). intros h.
  unfold y4b. gain_lengths. lra.
Qed.

Lemma gain_cb_1 :
  gain y4b cb_1 < _entropy y4b + log2 (1 + eps) / 4 - 5 / 8.
Proof.
  unfold gain, cb_1. cbn [left_y right_y].
  rewrite entropy_0. pose proof entropy_010 as H.
  generalize dependent (_entropy [0; 1; 0]%nat). intros h1 H.
  generalize (_entropy y4b). intros h.
  unfold y4b. gain_lengths. lra.
Qed.

Lemma gain_cb_3 :
  gain y4b cb_3 < _entropy y4b + log2 (1 + eps) / 4 - 5 / 8.
Proof.
  unfold gain, cb_3. cbn [left_y right_y].
  rewrite entropy_0. pose proof entropy_001_tight as H.
  generalize dependent (_entropy [0; 0; 1]%nat). intros h1 H.
  generalize (_entropy y4b). intros h.
  unfold y4b. gain_lengths. lra.
Qed.

(** The search on [X4], [y4b] ends with the split at threshold 2. *)
Lemma search_X4b : search X4 y4b = Ok (Fin (gain y4b cb_2), Some cb_2).
Proof.
  rewrite search_fold; [| reflexivity | discriminate].
  rewrite candidates_X4b. f_equal. apply first_max_fold.
  exists [cb_1], [cb_3; cb_4]. split; [reflexivity |].
  pose proof log2_1p_eps as Ha. pose proof log2_1p_2eps as Hb.
  pose proof entropy_y4b as Hh. rewrite gain_cb_2.
  unfold eps in Ha at 3. unfold eps in Hb at 4.
  split.
  - intros c [<- | []]. pose proof gain_cb_1. lra.
  - intros c [<- | [<- | []]].
    + pose proof gain_cb_3. lra.
    + replace (gain y4b cb_4) with 0
        by (symmetry; apply gain_all_left; discriminate).
      lra.
Qed.

(** The search on [X4[[1, 0]]], [[1, 0]] ends with the split at
    threshold 1. *)
Lemma search_X21 : search X21 y21 = Ok (Fin (gain y21 cc_1), Some cc_1).
Proof.
  rewrite search_fold; [| reflexivity | discriminate].
  rewrite candidates_X21. f_equal. apply first_max_fold.
  exists [], [cc_2]. split; [reflexivity |]. split; [intros c [] |].
  intros c [<- | []].
  replace (gain y21 cc_2) with 0
    by (symmetry; apply gain_all_left; discriminate).
  assert (Hg : gain y21 cc_1 = 1 - log2 (1 + 2 * eps) + log2 (1 + eps)).
  { unfold gain, cc_1, y21. cbn [left_y right_y].
    rewrite entropy_10, entropy_0, entropy_1. gain_lengths. lra. }
  rewrite Hg. pose proof log2_1p_eps as Ha. pose proof log2_1p_2eps as Hb.
  unfold eps in Ha at 3. unfold eps in Hb at 4. lra.
Qed.

End SecondLevel.

(** The body of a call that has selected [best_split], whatever function
    answers its recursive calls. *)
Lemma build_body_split (rec : matrix -> labels -> nat -> result node)
    (md : option nat) (X : matrix) (y : labels) (depth : nat)
    (g : gain_bound) (best_split : split) :
  (forall c, unique_labels y <> [c]) ->
  stops_early md X depth = false ->
  search X y = Ok (g, Some best_split) ->
  build_body rec md X y depth
  = (XL <- take_rows X (left_y best_split) ;;
     left_tree <- rec XL (left_y best_split) (S depth) ;;
     XR <- take_rows X (right_y best_split) ;;
     right_tree <- rec XR (right_y best_split) (S depth) ;;
     Ok (Internal (feature_idx best_split) (threshold best_split)
                  left_tree right_tree)).
Proof.
  intros Hu Hstop Hs. unfold build_body. rewrite Hstop, Hs. cbn [bind snd].
  destruct (unique_labels y) as [| c [| c' u]]; try reflexivity.
  exfalso. apply (Hu c). reflexivity.
Qed.

(** On [X4] and the labels [[0, 0, 1, 0]] the builder splits twice: the
    right call receives the rows [X4[1]] and [X4[0]], and splits them at
    threshold 1. *)
Lemma build_tree_X4b (fuel : nat) :
  _build_tree (S (S (S fuel))) None X4 y4b 0
  = Ok (Internal 0 2%Q (Leaf 0) (Internal 0 1%Q (Leaf 0) (Leaf 1))).
Proof.
  rewrite (build_tree_split (S (S fuel)) None X4 y4b 0 _ cb_2
             ltac:(discriminate) eq_refl search_X4b).
  cbn [left_y right_y cb_2 feature_idx threshold].
  change (take_rows X4 [0; 0]) with (Ok [[1%Q]; [1%Q]]).
  change (take_rows X4 [1; 0]) with (Ok X21).
  cbn [bind].
  rewrite (build_tree_constant (S fuel) None [[1%Q]; [1%Q]] [0; 0] 1 0);
    [| discriminate | repeat constructor].
  cbn [bind]. change [1; 0] with y21.
  rewrite (build_tree_split (S fuel) None X21 y21 1 _ cc_1
             ltac:(discriminate) eq_refl search_X21).
  cbn [left_y right_y cc_1 feature_idx threshold].
  change (take_rows X21 [0]) with (Ok [[2%Q]]).
  change (take_rows X21 [1]) with (Ok [[1%Q]]).
  cbn [bind].
  rewrite (build_tree_constant fuel None [[2%Q]] [0] 2 0);
    [| discriminate | repeat constructor].
  cbn [bind].
  rewrite (build_tree_constant fuel None [[1%Q]] [1] 2 1);
    [| discriminate | repeat constructor].
  reflexivity.
Qed.

(** C2.  When a call of [_build_tree] has selected [best_split], its
    result is the result of its body, in which the two recursive calls are
    made at depth + 1 on [X[left_y]] with [left_y] and on [X[right_y]]
    with [right_y], whatever the recursive calls answer; row number [i] of
    the matrix passed to the left call is the row of [X] whose number is
    the label [left_y[i]], and likewise on the right; and when the call
    returns a tree, the two subtrees are the trees that [_build_tree]
    returns on these arrays.  These matrices are not the rows selected by
    the mask of the split.  On [X = [[1],[2],[3],[4]]] and
    [y = [0,0,1,0]] the root splits at threshold 2, whose mask sends the
    rows [[3],[4]] to the right; the right call receives [[2],[1]]
    instead, and the builder returns the tree whose right subtree tests
    threshold 1. *)
Theorem recursion_indexes_rows_by_labels (fuel : nat) (md : option nat)
    (X : matrix) (y : labels) (depth : nat) (g : gain_bound)
    (best_split : split) :
  (forall c, unique_labels y <> [c]) ->
  stops_early md X depth = false ->
  search X y = Ok (g, Some best_split) ->
  (forall rec,
     build_body rec md X y depth
     = (XL <- take_rows X (left_y best_split) ;;
        left_tree <- rec XL (left_y best_split) (S depth) ;;
        XR <- take_rows X (right_y best_split) ;;
        right_tree <- rec XR (right_y best_split) (S depth) ;;
        Ok (Internal (feature_idx best_split) (threshold best_split)
                     left_tree right_tree)))
  /\ _build_tree (S fuel) md X y depth
     = build_body (_build_tree fuel md) md X y depth
  /\ (forall XL, take_rows X (left_y best_split) = Ok XL ->
        Forall2 (fun l r => nth_error X l = Some r) (left_y best_split) XL)
  /\ (forall XR, take_rows X (right_y best_split) = Ok XR ->
        Forall2 (fun l r => nth_error X l = Some r) (right_y best_split) XR)
  /\ (forall t, _build_tree (S fuel) md X y depth = Ok t ->
        exists XL XR left_tree right_tree,
          take_rows X (left_y best_split) = Ok XL
          /\ _build_tree fuel md XL (left_y best_split) (S depth)
             = Ok left_tree
          /\ take_rows X (right_y best_split) = Ok XR
          /\ _build_tree fuel md XR (right_y best_split) (S depth)
             = Ok right_tree
          /\ t = Internal (feature_idx best_split) (threshold best_split)
                          left_tree right_tree)
  /\ (search X4 y4b = Ok (Fin (gain y4b cb_2), Some cb_2)
      /\ rows_right_of X4 (feature_idx cb_2) (threshold cb_2)
         = [[3]; [4]]%Q
      /\ take_rows X4 (right_y cb_2) = Ok [[2]; [1]]%Q
      /\ forall n,
           _build_tree (S (S (S n))) None X4 y4b 0
           = Ok (Internal 0 2%Q (Leaf 0)
                   (Internal 0 1%Q (Leaf 0) (Leaf 1)))).
Proof.
  intros Hu Hstop Hsearch.
  split; [| split; [| split; [| split; [| split]]]].
  - intros rec. apply (build_body_split rec md X y depth g); assumption.
  - apply build_tree_eq.
  - intros XL. apply take_rows_spec.
  - intros XR. apply take_rows_spec.
  - intros t Ht.
    rewrite (build_tree_split fuel md X y depth g best_split Hu Hstop Hsearch)
      in Ht.
    apply bind_Ok in Ht. destruct Ht as [XL [HXL Ht]].
    apply bind_Ok in Ht. destruct Ht as [lt [Hl Ht]].
    apply bind_Ok in Ht. destruct Ht as [XR [HXR Ht]].
    apply bind_Ok in Ht. destruct Ht as [rt [Hr Ht]].
    injection Ht as <-.
    exists XL, XR, lt, rt. repeat split; assumption.
  - split; [exact search_X4b |]. split; [reflexivity |].
    split; [reflexivity |]. exact build_tree_X4b.
Qed.

Lemma recursion_indexes_rows_by_labels_witness :
  stops_early None X4 0 = false
  /\ search X4 y4b = Ok (Fin (gain y4b cb_2), Some cb_2)
  /\ (forall rec,
        build_body rec None X4 y4b 0
        = (XL <- take_rows X4 [0; 0] ;;
           left_tree <- rec XL [0; 0] 1 ;;
           XR <- take_rows X4 [1; 0] ;;
           right_tree <- rec XR [1; 0] 1 ;;
           Ok (Internal 0 2%Q left_tree right_tree)))
  /\ exists XL XR left_tree right_tree,
       take_rows X4 [0; 0] = Ok XL
       /\ _build_tree 2 None XL [0; 0] 1 = Ok left_tree
       /\ take_rows X4 [1; 0] = Ok XR
       /\ _build_tree 2 None XR [1; 0] 1 = Ok right_tree
       /\ Internal 0 2%Q (Leaf 0) (Internal 0 1%Q (Leaf 0) (Leaf 1))
          = Internal 0 2%Q left_tree right_tree.
Proof.
  split; [reflexivity |]. split; [exact search_X4b |].
  assert (Hu : forall c, unique_labels y4b <> [c]) by discriminate.
  pose proof (recursion_indexes_rows_by_labels 2 None X4 y4b 0
                (Fin (gain y4b cb_2)) cb_2 Hu eq_refl search_X4b) as H.
  split; [exact (proj1 H) |].
  exact (proj1 (proj2 (proj2 (proj2 (proj2 H)))) _ (build_tree_X4b 0)).
Defined.
